(** * NeDBoose: schema validation, query execution and populate

    A shallow embedding of the NeDBoose wrapper (classes [Schema], [Query],
    [Model] and the factory [model]) together with the properties of its
    validation pipeline and of its populate resolver.

    JavaScript values are an inductive type; objects are association lists
    in property order; the model registry (a JS [Map] keyed by model name)
    is a [gmap string _]; the storage engine behind a model is the list of
    the documents of its collection, in storage order. *)

From Stdlib Require Import ZArith String List Bool Lia.
From stdpp Require Import base option list strings pretty gmap.
Import ListNotations.

Open Scope string_scope.
Open Scope list_scope.

(** ** JavaScript values and objects *)

#[warnings="-register-all"]
Inductive value : Type :=
| VUndefined
| VNull
| VBool (b : bool)
| VNum (n : Z)
| VStr (s : string)
| VDate (t : Z)
| VArr (xs : list value)
| VObj (o : list (string * value)).

(** A document is a plain object: its own properties, in property order.
    Its prototype is [Object.prototype], which the model does not
    represent: reads and writes below are those of own data properties.
    They are the code's [d[k]] and [d[k] = v] for every key but the names
    [Object.prototype] defines ([prototype_members]): such a key, when it
    is not an own property, reads as the inherited member, and an
    assignment to [__proto__] replaces the prototype.  The properties of
    [Schema.validate] are therefore stated for schemas that declare no
    such name ([plain_schema]) and inputs without an own [__proto__]
    property ([plain_input]). *)
Definition document : Type := list (string * value).

(** The property names of [Object.prototype]. *)
Definition prototype_members : list string :=
  ["constructor"; "__defineGetter__"; "__defineSetter__"; "hasOwnProperty";
   "__lookupGetter__"; "__lookupSetter__"; "isPrototypeOf";
   "propertyIsEnumerable"; "toString"; "valueOf"; "__proto__";
   "toLocaleString"].

(** A key that [Object.prototype] does not define. *)
Definition plain_key (k : string) : bool :=
  negb (existsb (String.eqb k) prototype_members).

(** [v === undefined] *)
Definition is_undefined (v : value) : bool :=
  match v with VUndefined => true | _ => false end.

(** [v == null], that is, [v === undefined || v === null] *)
Definition nullish (v : value) : bool :=
  match v with VUndefined | VNull => true | _ => false end.

(** [Array.isArray(v)] *)
Definition isArray (v : value) : bool :=
  match v with VArr _ => true | _ => false end.

(** [d[k]] for own properties: the first property named [k], [undefined]
    when there is none. *)
Fixpoint get (d : document) (k : string) : value :=
  match d with
  | [] => VUndefined
  | (k', v) :: rest => if String.eqb k' k then v else get rest k
  end.

(** [k in d] for own properties. *)
Fixpoint has_key (d : document) (k : string) : bool :=
  match d with
  | [] => false
  | (k', _) :: rest => String.eqb k' k || has_key rest k
  end.

(** [d[k] = v]: an existing property keeps its place, a new one is added
    at the end. *)
Fixpoint set (d : document) (k : string) (v : value) : document :=
  match d with
  | [] => [(k, v)]
  | (k', v') :: rest =>
      if String.eqb k' k then (k, v) :: rest else (k', v') :: set rest k v
  end.

(** [Object.assign(target, source)]: every own property of [source] is
    assigned to [target], in order (for a source without an own
    [__proto__] property, which would be assigned through the prototype
    setter). *)
Definition object_assign (target source : document) : document :=
  fold_left (fun acc kv => set acc (fst kv) (snd kv)) source target.

(** ** Errors

    The code throws plain [Error] objects; the four messages it can build
    are the first four kinds below.  [StorageError] is an error reported
    by the storage engine, which the code hands on unchanged. *)

Inductive error : Type :=
| RequiredFieldMissing (key : string)
| TypeMismatch (key : string) (type : string)
| MissingRef (field : string)
| UnknownModel (name : string)
| StorageError (msg : string).

Inductive outcome (A : Type) : Type :=
| Ok (a : A)
| Err (e : error).
Arguments Ok {A} a.
Arguments Err {A} e.

(** ** Schema *)

(** The constructors a field's [type] can name. *)
Inductive jstype : Type :=
| TString | TNumber | TBoolean | TDate | TArray | TObject.

Definition jstype_name (t : jstype) : string :=
  match t with
  | TString => "String" | TNumber => "Number" | TBoolean => "Boolean"
  | TDate => "Date" | TArray => "Array" | TObject => "Object"
  end.

(** The message of the [Error] thrown. *)
Definition error_message (e : error) : string :=
  match e with
  | RequiredFieldMissing key => "Field '" ++ key ++ "' is required"
  | TypeMismatch key type =>
      "Field '" ++ key ++ "' should be of type " ++ type
  | MissingRef field => "Field '" ++ field ++ "' must have a ref property"
  | UnknownModel name => "Model '" ++ name ++ "' not found"
  | StorageError msg => msg
  end.

Definition jstype_eqb (a b : jstype) : bool :=
  match a, b with
  | TString, TString | TNumber, TNumber | TBoolean, TBoolean
  | TDate, TDate | TArray, TArray | TObject, TObject => true
  | _, _ => false
  end.

(** [v.constructor], for a value that is neither [undefined] nor [null]:
    the constructor the value inherits, when it is one a field's [type]
    can name.  An object with an own property [constructor] reads that
    property instead, a value of the model and so none of the
    constructors. *)
Definition constructor_of (v : value) : option jstype :=
  match v with
  | VUndefined | VNull => None
  | VBool _ => Some TBoolean
  | VNum _ => Some TNumber
  | VStr _ => Some TString
  | VDate _ => Some TDate
  | VArr _ => Some TArray
  | VObj o => if has_key o "constructor" then None else Some TObject
  end.

(** [field.default]: a literal, or a function that is called to produce
    the value.  [validate] calls the function at most once for a field;
    [g tt] is the value that call returns. *)
Inductive default_spec : Type :=
| Literal (v : value)
| Generator (g : unit -> value).

Record field : Type := mkField {
  ftype : jstype;
  required : bool;
  default : option default_spec;
  ref : option string;
  unique : bool;
  index : bool;
  ttl : option Z
}.

(** A schema definition, in the order [for (const key in definition)]
    enumerates it. *)
Definition definition : Type := list (string * field).

(** [field.default !== undefined] *)
Definition has_default (f : field) : bool :=
  match default f with
  | None => false
  | Some (Literal v) => negb (is_undefined v)
  | Some (Generator _) => true
  end.

(** [typeof field.default === 'function' ? field.default() : field.default] *)
Definition materialize (f : field) : value :=
  match default f with
  | None => VUndefined
  | Some (Literal v) => v
  | Some (Generator g) => g tt
  end.

(** The value of a declared field once the default has been applied:
    [doc[key]], read as an own property, or the materialized default. *)
Definition apply_default (f : field) (doc : document) (key : string) : value :=
  let value := get doc key in
  if nullish value && has_default f then materialize f else value.

(** [field.required && (value === undefined || value === null)] *)
Definition required_missing (f : field) (value : value) : bool :=
  required f && nullish value.

(** [value != null && !(value.constructor === field.type)] *)
Definition type_mismatch (f : field) (value : value) : bool :=
  negb (nullish value) &&
  negb (match constructor_of value with
        | Some t => jstype_eqb t (ftype f)
        | None => false
        end).

(** The loop of [Schema.validate], threading the [result] object. *)
Fixpoint validate_fields (defn : definition) (doc result : document)
  : outcome document :=
  match defn with
  | [] => Ok result
  | (key, f) :: rest =>
      let value := apply_default f doc key in
      if required_missing f value then Err (RequiredFieldMissing key)
      else if type_mismatch f value
      then Err (TypeMismatch key (jstype_name (ftype f)))
      else validate_fields rest doc
             (if is_undefined value then result else set result key value)
  end.

(** [Schema.validate(doc)] *)
Definition validate (defn : definition) (doc : document) : outcome document :=
  match validate_fields defn doc [] with
  | Ok result => Ok (object_assign (object_assign [] doc) result)
  | Err e => Err e
  end.

(** *** The objects [validate] works on

    [validate] works on three objects: the caller's document, which it
    reads; the [result] object, which it creates and writes; and the
    fresh target of [Object.assign], which it returns.  To tell them
    apart the same code is run on a heap: the list of the objects
    allocated so far, the address of an object being its position. *)







(** ** The storage engine

    The storage engine (the package [@seald-io/nedb]) is an external
    collaborator and not part of the code embedded here.  It is modelled
    through the operations the wrapper calls ([find] with [sort], [skip],
    [limit] and [exec], [findOne], [update]), with the behaviour NeDB
    documents for them.  A collection is the list of its documents in
    storage order, the order in which the engine goes through them to
    answer a query; a query filter is modelled by the predicate it
    denotes on documents, a sort specification by the reordering it
    performs. *)

Definition collection : Type := list document.
Definition filter_spec : Type := document -> bool.
Definition sort_spec : Type := list document -> list document.

(** The engine's equality of two values: primitives by [===], dates by
    time, arrays and objects member by member; [undefined] equals
    nothing. *)
Fixpoint things_equal (a b : value) {struct a} : bool :=
  match a, b with
  | VNull, VNull => true
  | VBool x, VBool y => Bool.eqb x y
  | VNum x, VNum y => Z.eqb x y
  | VStr x, VStr y => String.eqb x y
  | VDate x, VDate y => Z.eqb x y
  | VArr xs, VArr ys =>
      (fix all2 (xs ys : list value) {struct xs} : bool :=
         match xs, ys with
         | [], [] => true
         | x :: xs', y :: ys' => things_equal x y && all2 xs' ys'
         | _, _ => false
         end) xs ys
  | VObj o, VObj p =>
      Nat.eqb (length o) (length p) &&
      forallb (fun kv => has_key p (fst kv) &&
                         things_equal (snd kv) (get p (fst kv))) o
  | _, _ => false
  end.

(** The filter [{ _id: { $in: ids } }]. *)
Definition id_in (ids : list value) : filter_spec :=
  fun d => existsb (things_equal (get d "_id")) ids.

(** [String(v)], the property key a value is turned into.  Numbers are
    integers here and are written in decimal, as [String] writes the
    integers that a number holds exactly ([safe_id]); a date is written
    by its time (the engine's own rendering of a date depends on the time
    zone and is not reproduced). *)
Fixpoint js_String (v : value) : string :=
  match v with
  | VUndefined => "undefined"
  | VNull => "null"
  | VBool b => if b then "true" else "false"
  | VNum n => pretty n
  | VStr s => s
  | VDate t => "Date " ++ pretty t
  | VArr xs =>
      String.concat ","
        (List.map (fun x => if nullish x then "" else js_String x) xs)
  | VObj _ => "[object Object]"
  end.

(** The values an array of keys is searched for: its elements, those of
    an element that is an array in turn. *)
Fixpoint id_leaves (v : value) : list value :=
  match v with
  | VArr xs => flat_map id_leaves xs
  | _ => [v]
  end.

(** The engine's index on [_id]: the documents filed under a key. *)
Definition index_search (docs : collection) (key : value) : list document :=
  List.filter (fun d => things_equal (get d "_id") key) docs.

(** Setting the own property [k] of an object that holds documents: an
    existing property keeps its place, a new one is added at the end. *)
Fixpoint obj_put (obj : list (string * document)) (k : string) (d : document)
  : list (string * document) :=
  match obj with
  | [] => [(k, d)]
  | (k', d') :: rest =>
      if String.eqb k' k then (k, d) :: rest else (k', d') :: obj_put rest k d
  end.

(** [obj[k] = d] on such an object.  An assignment to [__proto__] goes to
    the prototype and adds no property. *)
Definition obj_assign (obj : list (string * document)) (k : string)
    (d : document) : list (string * document) :=
  if String.eqb k "__proto__" then obj else obj_put obj k d.

(** The array index a property name denotes, if it denotes one: the name
    is the decimal writing of an integer below [2^32 - 1]. *)
Definition digit_of (c : Ascii.ascii) : option N :=
  let n := Ascii.N_of_ascii c in
  if (48 <=? n)%N && (n <=? 57)%N then Some (n - 48)%N else None.

(** The number a string of decimal digits writes, after the digits read
    so far. *)
Fixpoint digits_value (s : string) (acc : N) : option N :=
  match s with
  | EmptyString => Some acc
  | String c rest =>
      match digit_of c with
      | Some d => digits_value rest (10 * acc + d)%N
      | None => None
      end
  end.

Definition array_index (k : string) : option N :=
  match k with
  | EmptyString => None
  | String _ _ =>
      match digits_value k 0 with
      | Some n =>
          if String.eqb (pretty n) k && (n <? 4294967295)%N
          then Some n else None
      | None => None
      end
  end.

(** A property put in its place among properties listed by ascending
    array index. *)
Fixpoint insert_by_index (n : N) (e : string * document)
    (l : list (N * (string * document))) : list (N * (string * document)) :=
  match l with
  | [] => [(n, e)]
  | (m, e') :: rest =>
      if (n <? m)%N then (n, e) :: l else (m, e') :: insert_by_index n e rest
  end.

(** [Object.keys(obj)] with the values: the properties named by an array
    index first, in ascending order, then the others in the order in
    which they were added. *)
Definition own_keys_order (obj : list (string * document))
  : list (string * document) :=
  List.map snd
    (fold_right (fun e acc => match array_index (fst e) with
                              | Some n => insert_by_index n e acc
                              | None => acc
                              end) [] obj)
  ++ List.filter (fun e => match array_index (fst e) with
                           | Some _ => false
                           | None => true
                           end) obj.

(** The candidates the index gives for an array of keys: each key is
    searched in turn and what is found is collected in an object under
    [String(doc._id)], so that of two documents whose identifiers are
    written alike only the one found last is kept; the candidates are the
    values of that object, in the order of [Object.keys]. *)
Definition index_matching (docs : collection) (keys : list value)
  : list document :=
  List.map snd
    (own_keys_order
       (fold_left (fun res d => obj_assign res (js_String (get d "_id")) d)
                  (flat_map (index_search docs) (flat_map id_leaves keys))
                  [])).

(** [db.find({ _id: { $in: ids } })] without sort, skip and limit: the
    engine takes the candidates from its index on [_id] and keeps those
    that match the filter. *)
Definition db_find_ids (docs : collection) (ids : list value)
  : list document :=
  List.filter (id_in ids) (index_matching docs ids).

Record cursor : Type := mkCursor {
  c_docs : collection;
  c_query : filter_spec;
  c_sort : option sort_spec;
  c_skip : option nat;
  c_limit : option nat
}.

Definition db_find (docs : collection) (q : filter_spec) : cursor :=
  mkCursor docs q None None None.
Definition cursor_sort (c : cursor) (s : sort_spec) : cursor :=
  mkCursor (c_docs c) (c_query c) (Some s) (c_skip c) (c_limit c).
Definition cursor_skip (c : cursor) (n : nat) : cursor :=
  mkCursor (c_docs c) (c_query c) (c_sort c) (Some n) (c_limit c).
Definition cursor_limit (c : cursor) (n : nat) : cursor :=
  mkCursor (c_docs c) (c_query c) (c_sort c) (c_skip c) (Some n).

(** A limit of [0] is no limit. *)
Definition apply_limit (limit : option nat) (res : list document)
  : list document :=
  match limit with
  | None | Some O => res
  | Some n => firstn n res
  end.

Definition apply_skip (skip : option nat) (res : list document)
  : list document :=
  match skip with
  | None => res
  | Some n => skipn n res
  end.

(** [cursor.exec]: the matching documents, sorted, then skip and limit. *)
Definition cursor_exec (c : cursor) : list document :=
  let res := List.filter (c_query c) (c_docs c) in
  let res := match c_sort c with Some s => s res | None => res end in
  apply_limit (c_limit c) (apply_skip (c_skip c) res).

(** [db.findOne(query)]: the first matching document, or [null]. *)
Definition db_findOne (docs : collection) (q : filter_spec)
  : option document :=
  List.find q docs.









(** ** Models and the model registry *)

Record index_spec : Type := mkIndex {
  fieldName : string;
  idx_unique : bool;
  idx_index : bool;
  expireAfterSeconds : option Z
}.

Record Datastore : Type := mkDatastore {
  filename : string;
  inMemoryOnly : bool;
  autocompactionInterval : option Z;
  indexes : list index_spec;
  stored : collection
}.

Record model_options : Type := mkOptions {
  opt_filename : option string;
  opt_inMemoryOnly : bool;
  opt_autocompactionInterval : option Z
}.

(** A [Model] instance.  [oid] is the identity of the object: every
    [new Model] gets a fresh one. *)
Record Model : Type := mkModel {
  oid : nat;
  name : string;
  schema : definition;
  db : Datastore
}.

(** The process-wide state: the registry [modelRegistry], the next object
    identity, and the database files on disk. *)
Record world : Type := mkWorld {
  modelRegistry : gmap string Model;
  next_oid : nat;
  disk : string -> collection
}.

(** The indexes the constructor asks for: one per field with [unique],
    [index] or [ttl]. *)
Definition ensure_indexes (schemaDef : definition) : list index_spec :=
  flat_map (fun kf =>
    let f := snd kf in
    if unique f || index f || bool_decide (ttl f <> None)
    then [mkIndex (fst kf) (unique f) (index f) (ttl f)]
    else []) schemaDef.

(** [options.filename || path.resolve(dataDir, `${name}.db`)], relative to
    the working directory. *)
Definition datastore_filename (name : string) (options : model_options)
  : string :=
  match opt_filename options with
  | Some f => if String.eqb f "" then "data/" ++ name ++ ".db" else f
  | None => "data/" ++ name ++ ".db"
  end.

(** [new Model(name, schemaDef, options)]: the instance is registered under
    its name, replacing what was registered there; its datastore is loaded
    from its file unless it is in memory only. *)
Definition new_Model (w : world) (name : string) (schemaDef : definition)
    (options : model_options) : Model * world :=
  let file := datastore_filename name options in
  let ds := mkDatastore file (opt_inMemoryOnly options)
              (match opt_autocompactionInterval options with
               | Some n => if Z.eqb n 0 then None else Some n
               | None => None
               end)
              (ensure_indexes schemaDef)
              (if opt_inMemoryOnly options then [] else disk w file) in
  let this := mkModel (next_oid w) name schemaDef ds in
  (this, mkWorld (<[name := this]> (modelRegistry w)) (S (next_oid w))
                 (disk w)).

(** [model(name, schemaDef, options)] *)
Definition model (w : world) (name : string) (schemaDef : definition)
    (options : model_options) : Model * world :=
  match modelRegistry w !! name with
  | Some m => (m, w)
  | None => new_Model w name schemaDef options
  end.



(** The instance [m] with the documents of its collection replaced. *)
Definition with_docs (m : Model) (docs' : collection) : Model :=
  mkModel (oid m) (name m) (schema m)
    (mkDatastore (filename (db m)) (inMemoryOnly (db m))
       (autocompactionInterval (db m)) (indexes (db m)) docs').


(** ** Queries *)

Record Query : Type := mkQuery {
  q_model : Model;
  query : filter_spec;
  single : bool;
  populateFields : list string;
  sortObj : option sort_spec;
  skipCount : option nat;
  limitCount : option nat
}.

(** [new Query(model, query, single)] *)
Definition new_Query (m : Model) (query : filter_spec) (single : bool)
  : Query :=
  mkQuery m query single [] None None None.

(** [Model.find(query)] and [Model.findOne(query)] *)
Definition Model_find (m : Model) (query : filter_spec) : Query :=
  new_Query m query false.
Definition Model_findOne (m : Model) (query : filter_spec) : Query :=
  new_Query m query true.

Definition includes (fields : list string) (field : string) : bool :=
  existsb (String.eqb field) fields.

Definition populate (q : Query) (field : string) : Query :=
  if includes (populateFields q) field then q
  else mkQuery (q_model q) (query q) (single q) (populateFields q ++ [field])
         (sortObj q) (skipCount q) (limitCount q).

Definition sort (q : Query) (sortObj : option sort_spec) : Query :=
  mkQuery (q_model q) (query q) (single q) (populateFields q) sortObj
    (skipCount q) (limitCount q).

Definition skip (q : Query) (n : nat) : Query :=
  mkQuery (q_model q) (query q) (single q) (populateFields q) (sortObj q)
    (Some n) (limitCount q).

Definition limit (q : Query) (n : nat) : Query :=
  mkQuery (q_model q) (query q) (single q) (populateFields q) (sortObj q)
    (skipCount q) (Some n).

Definition _buildCursor (q : Query) : cursor :=
  let cursor := db_find (stored (db (q_model q))) (query q) in
  let cursor := match sortObj q with
                | Some s => cursor_sort cursor s
                | None => cursor
                end in
  let cursor := match skipCount q with
                | Some n => cursor_skip cursor n
                | None => cursor
                end in
  match limitCount q with
  | Some n => cursor_limit cursor n
  | None => cursor
  end.

(** ** Executing a query

    Execution runs in a small state-and-error monad.  The state is the
    trace of the batched lookups the populate resolver has issued; each
    entry records the field it was issued for, the name the referenced
    model is registered under, and the identifiers asked for.  A thrown
    error ends the computation and keeps the trace. *)

Inductive event : Type :=
| Lookup (field : string) (refName : string) (ids : list value).

Definition M (A : Type) : Type := list event -> outcome A * list event.

Definition ret {A : Type} (a : A) : M A := fun t => (Ok a, t).

Definition bind {A B : Type} (c : M A) (k : A -> M B) : M B :=
  fun t => match c t with
           | (Ok a, t') => k a t'
           | (Err e, t') => (Err e, t')
           end.

Definition throw {A : Type} (e : error) : M A := fun t => (Err e, t).

Definition emit (e : event) : M unit := fun t => (Ok tt, t ++ [e]).

Declare Scope exec_scope.
Delimit Scope exec_scope with exec.
Notation "x <- c1 ;; c2" := (bind c1 (fun x => c2))
  (at level 100, c1 at next level, right associativity) : exec_scope.
Notation "c1 ;;; c2" := (bind c1 (fun _ => c2))
  (at level 100, right associativity) : exec_scope.
Open Scope exec_scope.

(** Truthiness, as [x => x] and [||] test it. *)
Definition truthy (v : value) : bool :=
  match v with
  | VUndefined | VNull => false
  | VBool b => b
  | VNum n => negb (Z.eqb n 0)
  | VStr s => negb (String.eqb s "")
  | VDate _ | VArr _ | VObj _ => true
  end.

(** The key comparison of [Set] and [Map].  Primitives are compared by
    value.  Dates, arrays and objects are compared by reference: the
    documents handed out by the storage engine are fresh copies, so two
    occurrences of such a value are never the same object. *)
Definition same_value_zero (a b : value) : bool :=
  match a, b with
  | VUndefined, VUndefined => true
  | VNull, VNull => true
  | VBool x, VBool y => Bool.eqb x y
  | VNum x, VNum y => Z.eqb x y
  | VStr x, VStr y => String.eqb x y
  | _, _ => false
  end.

(** [set.add(x)] on the elements of a [Set], in insertion order. *)
Definition set_add (s : list value) (x : value) : list value :=
  if existsb (same_value_zero x) s then s else s ++ [x].

(** [[...new Set(ids)]] *)
Definition new_Set (ids : list value) : list value :=
  fold_left set_add ids [].

(** A [Map]: its entries in insertion order. *)
Definition js_map : Type := list (value * value).

(** [map.set(k, v)]: an existing key keeps its place. *)
Fixpoint map_set (m : js_map) (k v : value) : js_map :=
  match m with
  | [] => [(k, v)]
  | (k', v') :: rest =>
      if same_value_zero k' k then (k', v) :: rest
      else (k', v') :: map_set rest k v
  end.

(** [map.get(k)] *)
Fixpoint map_get (m : js_map) (k : value) : value :=
  match m with
  | [] => VUndefined
  | (k', v) :: rest => if same_value_zero k' k then v else map_get rest k
  end.

(** [new Map(entries)] *)
Definition new_Map (entries : list (value * value)) : js_map :=
  fold_left (fun m kv => map_set m (fst kv) (snd kv)) entries [].

(** [definition[field]?.ref], when it is truthy. *)
Definition field_ref (defn : definition) (field : string) : option string :=
  match List.find (fun kf => String.eqb (fst kf) field) defn with
  | Some (_, def) =>
      match ref def with
      | Some r => if String.eqb r "" then None else Some r
      | None => None
      end
  | None => None
  end.

(** The identifiers gathered from the result set for one field. *)
Definition gather_ids (field : string) (docs : list document) : list value :=
  flat_map (fun doc =>
    let val := get doc field in
    match val with
    | VArr xs => xs
    | _ => if nullish val then [] else [val]
    end) docs.

(** The value a reference field is rewritten to: for an array
    [val.map(id => map.get(id)).filter(x => x)], otherwise
    [map.get(val) || null]. *)
Definition populated_value (map : js_map) (val : value) : value :=
  match val with
  | VArr xs => VArr (List.filter truthy (List.map (map_get map) xs))
  | _ => let x := map_get map val in if truthy x then x else VNull
  end.

(** The rewrite of one document's field from the lookup map. *)
Definition assign_populated (field : string) (map : js_map) (doc : document)
  : document :=
  set doc field (populated_value map (get doc field)).

(** [refModel.find({ _id: { $in: uniqueIds } }).exec()]: the query built
    there has no sort, skip, limit or populate, so its execution is the
    engine's [find] with that filter on the referenced collection, which
    the engine answers from its index on [_id]. *)
Definition batch_fetch (refModel : Model) (uniqueIds : list value)
  : list document :=
  db_find_ids (stored (db refModel)) uniqueIds.

(** [new Map(fetched.map(d => [d._id, d]))] *)
Definition lookup_map (fetched : list document) : js_map :=
  new_Map (List.map (fun d => (get d "_id", VObj d)) fetched).

(** One round of the loop of [Query._populate].  The engine answers the
    batched lookup here; a fault of the engine during the lookup, which
    the code would hand on as a rejection, is not part of the model. *)
Definition populate_field (reg : gmap string Model) (m : Model)
    (field : string) (docs : list document) : M (list document) :=
  match field_ref (schema m) field with
  | None => throw (MissingRef field)
  | Some r =>
      match reg !! r with
      | None => throw (UnknownModel r)
      | Some refModel =>
          let ids := gather_ids field docs in
          let uniqueIds := new_Set ids in
          match uniqueIds with
          | [] => ret docs
          | _ :: _ =>
              emit (Lookup field r uniqueIds) ;;;
              let fetched := batch_fetch refModel uniqueIds in
              let map := lookup_map fetched in
              ret (List.map (assign_populated field map) docs)
          end
      end
  end.

(** [Query._populate(docs)] *)
Fixpoint _populate (reg : gmap string Model) (m : Model)
    (fields : list string) (docs : list document) : M (list document) :=
  match fields with
  | [] => ret docs
  | field :: rest =>
      docs' <- populate_field reg m field docs ;;
      _populate reg m rest docs'
  end.

(** [Query._execMany()] *)
Definition _execMany (reg : gmap string Model) (q : Query)
  : M (list document) :=
  let docs := cursor_exec (_buildCursor q) in
  _populate reg (q_model q) (populateFields q) docs.

(** [Query._execOne()]; [None] is [null]. *)
Definition _execOne (reg : gmap string Model) (q : Query)
  : M (option document) :=
  if bool_decide (sortObj q <> None) || bool_decide (skipCount q <> None)
  then docs <- _execMany reg q ;; ret (head docs)
  else match db_findOne (stored (db (q_model q))) (query q) with
       | None => ret None
       | Some doc =>
           docs <- _populate reg (q_model q) (populateFields q) [doc] ;;
           ret (head docs)
       end.

Inductive exec_result : Type :=
| One (doc : option document)
| Many (docs : list document).

(** [Query.exec()] *)
Definition exec (reg : gmap string Model) (q : Query) : M exec_result :=
  if single q
  then doc <- _execOne reg q ;; ret (One doc)
  else docs <- _execMany reg q ;; ret (Many docs).

(** [Query.then(resolve, reject)] runs the same execution. *)
Definition then_ (reg : gmap string Model) (q : Query) : M exec_result :=
  exec reg q.

(** ** Definitions used to state the properties *)

(** A well-formed object has no two properties of the same name. *)
Definition wf_object (d : document) : Prop := NoDup (List.map fst d).

(** A schema that declares no field under a name of [Object.prototype]. *)
Definition plain_schema (defn : definition) : bool :=
  forallb (fun kf => plain_key (fst kf)) defn.

(** An input without an own [__proto__] property. *)
Definition plain_input (doc : document) : bool :=
  negb (has_key doc "__proto__").

(** The generators of a schema never yield [undefined] or [null]. *)
Definition generators_yield (defn : definition) : bool :=
  forallb (fun kf => match default (snd kf) with
                     | Some (Generator g) => negb (nullish (g tt))
                     | _ => true
                     end) defn.

(** The check one declared field goes through: the error it raises, if
    any. *)
Definition field_error (doc : document) (kf : string * field)
  : option error :=
  let value := apply_default (snd kf) doc (fst kf) in
  if required_missing (snd kf) value
  then Some (RequiredFieldMissing (fst kf))
  else if type_mismatch (snd kf) value
  then Some (TypeMismatch (fst kf) (jstype_name (ftype (snd kf))))
  else None.

(** ** Sample data: the models of the usage example *)

Definition plain_field (t : jstype) (req : bool) : field :=
  mkField t req None None false false None.

(** [Author]: [{ name: { type: String, required: true },
                 books: { type: Array, ref: 'Book', default: [] } }] *)
Definition AuthorDef : definition :=
  [("name", plain_field TString true);
   ("books", mkField TArray false (Some (Literal (VArr []))) (Some "Book")
               false false None)].

(** [Book]: [{ title: { type: String, required: true },
               author: { type: String, ref: 'Author' } }] *)
Definition BookDef : definition :=
  [("title", plain_field TString true);
   ("author", mkField TString false None (Some "Author") false false None)].

Definition sample_model (id : nat) (name : string) (defn : definition)
    (c : collection) : Model :=
  mkModel id name defn
    (mkDatastore ("data/" ++ name ++ ".db") false None [] c).

Definition sample_books : collection :=
  [[("_id", VStr "b1"); ("title", VStr "Der Process")];
   [("_id", VStr "b2"); ("title", VStr "Die Verwandlung");
    ("author", VStr "a1")];
   [("_id", VStr "b3"); ("title", VStr "Der Beweis");
    ("author", VStr "a9")]].

Definition sample_authors : collection :=
  [[("_id", VStr "a1"); ("name", VStr "Franz Kafka");
    ("books", VArr [VStr "b2"; VStr "b7"; VStr "b1"])]].

Definition Book : Model := sample_model 0 "Book" BookDef sample_books.
Definition Author : Model := sample_model 1 "Author" AuthorDef sample_authors.

Definition sample_registry : gmap string Model :=
  <["Author" := Author]> (<["Book" := Book]> ∅).

(** The filter [{}]. *)
Definition match_all : filter_spec := fun _ => true.

(** A sort that leaves the storage order. *)
Definition storage_order : sort_spec := fun l => l.

(** A sequence of calls of the factory [model], each with its name,
    schema definition and options, run from a given state. *)
Definition run_factory (w : world)
    (calls : list (string * definition * model_options)) : world :=
  fold_left (fun w c => snd (model w (fst (fst c)) (snd (fst c)) (snd c)))
            calls w.

(** Every registered instance was created before the next identity. *)
Definition registry_ok (w : world) : Prop :=
  forall n m, modelRegistry w !! n = Some m -> oid m < next_oid w.

(** An identifier as the storage engine assigns it: a primitive that is
    neither [undefined] nor [null]. *)
Definition is_key (v : value) : bool :=
  match v with
  | VStr _ | VNum _ | VBool _ => true
  | _ => false
  end.

(** Every document of the collection carries an identifier. *)
Definition ids_ok (c : collection) : bool :=
  forallb (fun d => is_key (get d "_id")) c.




(** ** Populate: the notions the properties are stated with *)

(** The document of a collection that carries a given identifier. *)
Definition lookup_id (c : collection) (id : value) : option document :=
  List.find (fun d => same_value_zero (get d "_id") id) c.

(** The resolved documents of a sequence of identifiers: in the order of
    the identifiers, those without a document left out. *)
Definition resolved_docs (c : collection) (ids : list value) : list value :=
  flat_map (fun id => match lookup_id c id with
                      | Some d => [VObj d]
                      | None => []
                      end) ids.

(** No two documents of the collection carry identifiers that are
    written alike as strings. *)
Fixpoint distinct_id_strings (c : collection) : bool :=
  match c with
  | [] => true
  | d :: rest =>
      negb (existsb (fun d' => String.eqb (js_String (get d "_id"))
                                          (js_String (get d' "_id"))) rest)
      && distinct_id_strings rest
  end.

(** An identifier that, if it is a number, is an integer that a number
    holds exactly: at most [2^53 - 1] in absolute value. *)
Definition safe_id (v : value) : bool :=
  match v with
  | VNum n => (Z.abs n <=? 9007199254740991)%Z
  | _ => true
  end.

(** A collection whose identifiers tell its documents apart as keys of
    the lookup: every document carries a string, an integer or a boolean
    as identifier; no two documents carry identifiers that are written
    alike (as the number [7] and the string ['7'] are); and no identifier
    is written [__proto__]. *)
Definition store_ok (c : collection) : bool :=
  ids_ok c && distinct_id_strings c &&
  forallb (fun d => negb (String.eqb (js_String (get d "_id")) "__proto__")
                    && safe_id (get d "_id")) c.

(** The referenced model of a field, or the configuration error that
    populate raises for it. *)
Definition ref_model (reg : gmap string Model) (m : Model) (field : string)
  : outcome (string * Model) :=
  match field_ref (schema m) field with
  | None => Err (MissingRef field)
  | Some r =>
      match reg !! r with
      | None => Err (UnknownModel r)
      | Some refModel => Ok (r, refModel)
      end
  end.

(** The batch key set of a field over a result set. *)
Definition batch_keys (field : string) (docs : list document) : list value :=
  new_Set (gather_ids field docs).

(** The value a field holds after its round of populate, from the value
    it held before, for a given batch key set. *)
Definition field_after (refModel : Model) (keys : list value) (val : value)
  : value :=
  match keys with
  | [] => val
  | _ :: _ => populated_value (lookup_map (batch_fetch refModel keys)) val
  end.

(** Whether the field is a property of the document after its round. *)
Definition present_after (keys : list value) (present : bool) : bool :=
  match keys with
  | [] => present
  | _ :: _ => true
  end.

(** The last document of a list that carries a given identifier, as a
    value; [acc] when there is none. *)
Definition last_with_id (acc : value) (l : list document) (k : value)
  : value :=
  fold_left (fun acc d => if same_value_zero (get d "_id") k
                          then VObj d else acc) l acc.

(** The lookups of a trace that were issued for a given field. *)
Definition lookups_for (field : string) (t : list event) : list event :=
  List.filter (fun e => match e with
                        | Lookup f _ _ => String.eqb f field
                        end) t.

(** The lookups of a trace that were issued for the other fields. *)
Definition lookups_except (field : string) (t : list event) : list event :=
  List.filter (fun e => match e with
                        | Lookup f _ _ => negb (String.eqb f field)
                        end) t.

(** No two identifiers of the list are the same key. *)
Fixpoint distinct_keys (ids : list value) : bool :=
  match ids with
  | [] => true
  | x :: rest =>
      negb (existsb (same_value_zero x) rest) && distinct_keys rest
  end.

(** The resolution of one identifier, as [map.get] reports it. *)
Definition resolve (c : collection) (id : value) : value :=
  match lookup_id c id with
  | Some d => VObj d
  | None => VUndefined
  end.

(** Two documents agree on a field: the same value, and the field is a
    property of both or of neither. *)
Definition same_on (field : string) (d d' : document) : Prop :=
  get d' field = get d field /\ has_key d' field = has_key d field.

(** The field is configured for populate: it has a [ref], and the [ref]
    names a registered model. *)
Definition configured (reg : gmap string Model) (m : Model) (field : string)
  : bool :=
  match ref_model reg m field with
  | Ok _ => true
  | Err _ => false
  end.

(** The identifiers one value of a reference field contributes to the
    batch. *)
Definition ids_of (val : value) : list value :=
  match val with
  | VArr xs => xs
  | _ => if nullish val then [] else [val]
  end.

(** The query after [.populate(f)] for each field of a list, in order. *)
Definition populate_all (q : Query) (fields : list string) : Query :=
  fold_left populate fields q.

(** What each lookup of a trace must be: issued for a requested and
    configured field, against the model the field refers to, with the
    batch key set of the result set, which is not empty and holds no key
    twice. *)
Definition lookup_ok (reg : gmap string Model) (m : Model)
    (fields : list string) (docs : list document) (e : event) : Prop :=
  match e with
  | Lookup f r keys =>
      In f fields /\
      (exists rm, ref_model reg m f = Ok (r, rm)) /\
      keys = batch_keys f docs /\
      keys <> [] /\
      distinct_keys keys = true
  end.

(** ** Further operations of [Model] *)

(** The storage engine's [insert], as far as [Model.create] depends on
    it: from the collection and the document handed over, the stored
    document (with its [_id]) and the collection afterwards, or an
    error.  How the engine chooses identifiers and enforces its indexes
    is left open. *)
Definition engine_insert : Type :=
  collection -> document -> outcome (document * collection).

(** [Model.create(doc)]: validate, then insert what validation returned. *)
Definition Model_create (insert : engine_insert) (m : Model) (doc : document)
  : outcome (document * Model) :=
  match validate (schema m) doc with
  | Err e => Err e
  | Ok validated =>
      match insert (stored (db m)) validated with
      | Ok (d, docs') => Ok (d, with_docs m docs')
      | Err e => Err e
      end
  end.



(** ** Further notions the properties are stated with *)

(** A document conforms to a schema: every required field holds a value
    that is neither [undefined] nor [null], and every declared field that
    holds such a value holds one built by the declared constructor. *)
Definition conforms (defn : definition) (d : document) : Prop :=
  forall k f, In (k, f) defn ->
    (required f = true -> nullish (get d k) = false) /\
    (nullish (get d k) = false ->
     constructor_of (get d k) = Some (ftype f)).

(** Two documents read alike: every key has the same value in both, and
    is a property of both or of neither. *)
Definition reads_alike (d d' : document) : Prop :=
  forall k, same_on k d d'.


(** The process state before any model is defined. *)
Definition empty_world (disk : string -> collection) : world :=
  mkWorld ∅ 0 disk.

(** The schema definition of the first call, in a sequence of factory
    calls, that names a given model. *)
Fixpoint first_definition
    (calls : list (string * definition * model_options)) (n : string)
  : option definition :=
  match calls with
  | [] => None
  | c :: rest =>
      if String.eqb (fst (fst c)) n then Some (snd (fst c))
      else first_definition rest n
  end.

(** A third sample model, with two reference fields:
    [Loan]: [{ book: { type: String, ref: 'Book' },
               reader: { type: String, ref: 'Author' } }] *)
Definition LoanDef : definition :=
  [("book", mkField TString false None (Some "Book") false false None);
   ("reader", mkField TString false None (Some "Author") false false None)].

Definition sample_loans : collection :=
  [[("_id", VStr "l1"); ("book", VStr "b1"); ("reader", VStr "a1")];
   [("_id", VStr "l2"); ("book", VStr "b2")]].

Definition Loan : Model := sample_model 2 "Loan" LoanDef sample_loans.

Definition sample_library : gmap string Model :=
  <["Loan" := Loan]> sample_registry.

(** The query with its mode replaced: [single] or many. *)
Definition with_single (q : Query) (single : bool) : Query :=
  mkQuery (q_model q) (query q) single (populateFields q) (sortObj q)
    (skipCount q) (limitCount q).

(** The documents a sequence of identifiers matches in a collection, by
    the storage engine's equality: in the order of the identifiers, those
    that match no document left out. *)
Definition matched_docs (c : collection) (ids : list value) : list value :=
  flat_map (fun id =>
              match List.find (fun d => things_equal (get d "_id") id) c with
              | Some d => [VObj d]
              | None => []
              end) ids.

(** Sample models whose identifiers are not all strings:
    [Tome]: [{ title: { type: String, required: true } }], with the
    identifiers [7], ['7'] and a date;
    [Shelf]: [{ tomes: { type: Array, ref: 'Tome' } }] *)
Definition TomeDef : definition := [("title", plain_field TString true)].

Definition ShelfDef : definition :=
  [("tomes", mkField TArray false None (Some "Tome") false false None)].

Definition sample_tomes : collection :=
  [[("_id", VNum 7); ("title", VStr "Amerika")];
   [("_id", VStr "7"); ("title", VStr "Das Schloss")];
   [("_id", VDate 1924); ("title", VStr "Ein Hungerkuenstler")]].

Definition sample_shelves : collection :=
  [[("_id", VStr "s1"); ("tomes", VArr [VNum 7; VStr "7"])];
   [("_id", VStr "s2"); ("tomes", VArr [VDate 1924])]].

Definition Tome : Model := sample_model 3 "Tome" TomeDef sample_tomes.
Definition Shelf : Model := sample_model 4 "Shelf" ShelfDef sample_shelves.

Definition sample_shelving : gmap string Model :=
  <["Shelf" := Shelf]> (<["Tome" := Tome]> ∅).

(** * Properties *)

(** ** Objects *)

Lemma get_set d k v k' :
  get (set d k v) k' = if String.eqb k k' then v else get d k'.
Proof.
  induction d as [|[a x] d IH]; simpl.
  - reflexivity.
  - destruct (String.eqb_spec a k) as [->|Hak]; simpl.
    + destruct (String.eqb_spec k k'); reflexivity.
    + destruct (String.eqb_spec a k') as [->|Hak'].
      * destruct (String.eqb_spec k k'); congruence.
      * apply IH.
Qed.

Lemma get_set_eq d k v : get (set d k v) k = v.
Proof. rewrite get_set, String.eqb_refl. reflexivity. Qed.

Lemma get_set_ne d k v k' : k <> k' -> get (set d k v) k' = get d k'.
Proof.
  intros H. rewrite get_set. apply String.eqb_neq in H. rewrite H.
  reflexivity.
Qed.

Lemma has_key_set d k v k' :
  has_key (set d k v) k' = String.eqb k k' || has_key d k'.
Proof.
  induction d as [|[a x] d IH]; simpl.
  - reflexivity.
  - destruct (String.eqb_spec a k) as [->|Hak]; simpl.
    + destruct (String.eqb k k'); reflexivity.
    + rewrite IH. destruct (String.eqb a k'), (String.eqb k k'); reflexivity.
Qed.

Lemma has_key_In d k : has_key d k = true <-> In k (List.map fst d).
Proof.
  induction d as [|[a x] d IH]; simpl.
  - split; [discriminate | tauto].
  - rewrite orb_true_iff, IH, String.eqb_eq. tauto.
Qed.

Lemma has_key_false_get d k : has_key d k = false -> get d k = VUndefined.
Proof.
  induction d as [|[a x] d IH]; simpl; [reflexivity|].
  destruct (String.eqb a k); simpl; [discriminate | exact IH].
Qed.

Lemma set_absent d k v : has_key d k = false -> set d k v = d ++ [(k, v)].
Proof.
  induction d as [|[a x] d IH]; simpl; [reflexivity|].
  destruct (String.eqb a k); simpl; [discriminate|].
  intros H. rewrite IH by exact H. reflexivity.
Qed.

Lemma set_same d k : has_key d k = true -> set d k (get d k) = d.
Proof.
  induction d as [|[a x] d IH]; simpl; [discriminate|].
  destruct (String.eqb_spec a k) as [->|Hak]; simpl.
  - reflexivity.
  - intros H. rewrite IH by exact H. reflexivity.
Qed.

Lemma object_assign_snoc t s k v :
  object_assign t (s ++ [(k, v)]) = set (object_assign t s) k v.
Proof. unfold object_assign. rewrite fold_left_app. reflexivity. Qed.

Lemma object_assign_cons t s k v :
  object_assign t ((k, v) :: s) = object_assign (set t k v) s.
Proof. reflexivity. Qed.

(** Copying a well-formed object into an empty one gives it back. *)
Lemma object_assign_copy (t s : document) :
  NoDup (List.map fst (t ++ s)) -> object_assign t s = t ++ s.
Proof.
  revert t. induction s as [|[k v] s IH]; intros t Hnd.
  - rewrite app_nil_r. reflexivity.
  - rewrite object_assign_cons.
    assert (Hk : has_key t k = false).
    { destruct (has_key t k) eqn:E; [|reflexivity].
      apply has_key_In in E.
      rewrite map_app in Hnd. simpl in Hnd.
      apply NoDup_app in Hnd as (_ & Hdis & _).
      exfalso. apply (Hdis k); [apply list_elem_of_In; exact E|].
      apply list_elem_of_In. left. reflexivity. }
    rewrite set_absent by exact Hk.
    rewrite IH; rewrite <- app_assoc; [reflexivity | exact Hnd].
Qed.

(** What a key reads after [Object.assign]: the last value the source
    gives it, or the target's. *)
Lemma get_object_assign (t s : document) k :
  get (object_assign t s) k =
  if has_key s k then get (rev s) k else get t k.
Proof.
  revert t. induction s as [|[a x] s IH] using rev_ind; intros t.
  - reflexivity.
  - rewrite object_assign_snoc, get_set, rev_app_distr. simpl.
    assert (Hk : has_key (s ++ [(a, x)]) k = String.eqb a k || has_key s k).
    { clear. induction s as [|[b y] s IH]; simpl.
      - destruct (String.eqb a k); reflexivity.
      - rewrite IH. destruct (String.eqb b k), (String.eqb a k); reflexivity. }
    rewrite Hk. destruct (String.eqb a k); simpl; [reflexivity | apply IH].
Qed.

Lemma has_key_object_assign (t s : document) k :
  has_key (object_assign t s) k = has_key t k || has_key s k.
Proof.
  revert t. induction s as [|[a x] s IH]; intros t.
  - simpl. rewrite orb_false_r. reflexivity.
  - rewrite object_assign_cons, IH, has_key_set. simpl.
    destruct (String.eqb a k), (has_key t k), (has_key s k); reflexivity.
Qed.

Lemma get_rev_wf (s : document) k :
  wf_object s -> get (rev s) k = get s k.
Proof.
  unfold wf_object. induction s as [|[a x] s IH]; intros Hnd; simpl.
  - reflexivity.
  - apply NoDup_cons in Hnd as [Hna Hnd].
    assert (Hsn : forall (l : document) b y,
               get (l ++ [(b, y)]) k =
               if has_key l k then get l k
               else if String.eqb b k then y else VUndefined).
    { clear. induction l as [|[c z] l IH]; intros b y; simpl.
      - reflexivity.
      - destruct (String.eqb c k); simpl; [reflexivity | apply IH]. }
    rewrite Hsn.
    destruct (String.eqb_spec a k) as [->|Hak].
    + assert (Hk : has_key (rev s) k = false).
      { destruct (has_key (rev s) k) eqn:E; [|reflexivity].
        apply has_key_In in E. exfalso. apply Hna.
        apply list_elem_of_In. rewrite map_rev in E.
        apply in_rev in E. exact E. }
      rewrite Hk. reflexivity.
    + destruct (has_key (rev s) k) eqn:E.
      * apply IH. exact Hnd.
      * rewrite <- IH by exact Hnd. symmetry. apply has_key_false_get.
        exact E.
Qed.

(** ** Schema validation *)

Lemma find_key_In {A} (l : list (string * A)) k x :
  NoDup (List.map fst l) -> In (k, x) l ->
  List.find (fun kf => String.eqb (fst kf) k) l = Some (k, x).
Proof.
  induction l as [|[a y] l IH]; intros Hnd Hin; simpl in *; [tauto|].
  apply NoDup_cons in Hnd as [Hna Hnd].
  destruct Hin as [Heq|Hin].
  - inversion Heq; subst. rewrite String.eqb_refl. reflexivity.
  - destruct (String.eqb_spec a k) as [->|Hak].
    + exfalso. apply Hna. apply list_elem_of_In.
      apply (in_map fst) in Hin. exact Hin.
    + apply IH; assumption.
Qed.

Lemma find_key_None {A} (l : list (string * A)) k :
  ~ In k (List.map fst l) ->
  List.find (fun kf => String.eqb (fst kf) k) l = None.
Proof.
  induction l as [|[a y] l IH]; intros Hni; simpl in *; [reflexivity|].
  destruct (String.eqb_spec a k) as [->|Hak]; [tauto|].
  apply IH. tauto.
Qed.

(** What the [result] object of the validation loop holds for each key. *)
Lemma validate_fields_get defn doc acc result :
  NoDup (List.map fst defn) ->
  validate_fields defn doc acc = Ok result ->
  forall k,
    match List.find (fun kf => String.eqb (fst kf) k) defn with
    | Some (_, f) =>
        let v := apply_default f doc k in
        get result k = (if is_undefined v then get acc k else v) /\
        has_key result k = has_key acc k || negb (is_undefined v)
    | None => get result k = get acc k /\ has_key result k = has_key acc k
    end.
Proof.
  revert acc. induction defn as [|[key f] defn IH]; intros acc Hnd Hv k.
  - simpl in *. inversion Hv; subst. split; reflexivity.
  - simpl in Hnd. apply NoDup_cons in Hnd as [Hna Hnd].
    simpl in Hv.
    destruct (required_missing f (apply_default f doc key)); [discriminate|].
    destruct (type_mismatch f (apply_default f doc key)); [discriminate|].
    specialize (IH _ Hnd Hv k). simpl.
    destruct (String.eqb_spec key k) as [->|Hkk].
    + rewrite find_key_None in IH
        by (intros Hin; apply Hna, list_elem_of_In; exact Hin).
      destruct IH as [Hg Hh]. simpl. rewrite Hg, Hh.
      destruct (is_undefined (apply_default f doc k)).
      * rewrite orb_false_r. split; reflexivity.
      * rewrite get_set_eq, has_key_set, String.eqb_refl, orb_true_r.
        split; reflexivity.
    + assert (Hacc : forall v,
                 get (if is_undefined v then acc else set acc key v) k
                 = get acc k /\
                 has_key (if is_undefined v then acc else set acc key v) k
                 = has_key acc k).
      { intros v. destruct (is_undefined v); [split; reflexivity|].
        rewrite get_set_ne, has_key_set by exact Hkk.
        apply String.eqb_neq in Hkk. rewrite Hkk. split; reflexivity. }
      destruct (Hacc (apply_default f doc key)) as [Hg Hh].
      destruct (List.find _ defn) as [[? f']|]; simpl in *;
        rewrite Hg, Hh in IH; exact IH.
Qed.

(** ** [validate] on the heap *)





Ltac by_computation := apply (bool_decide_unpack _); vm_compute; exact I.


(** The validation loop fails exactly at the first declared field that
    raises an error, with that error. *)
Lemma validate_fields_Err defn doc acc e :
  validate_fields defn doc acc = Err e <->
  exists pre kf post,
    defn = pre ++ kf :: post /\
    Forall (fun x => field_error doc x = None) pre /\
    field_error doc kf = Some e.
Proof.
  revert acc. induction defn as [|[key f] defn IH]; intros acc.
  - simpl. split; [discriminate|].
    intros (pre & kf & post & Heq & _). destruct pre; discriminate.
  - simpl. unfold field_error at 2. split.
    + intros Hv.
      destruct (required_missing f (apply_default f doc key)) eqn:Hreq.
      { exists [], (key, f), defn. unfold field_error. simpl. rewrite Hreq.
        inversion Hv; subst. auto. }
      destruct (type_mismatch f (apply_default f doc key)) eqn:Hty.
      { exists [], (key, f), defn. unfold field_error. simpl.
        rewrite Hreq, Hty. inversion Hv; subst. auto. }
      apply IH in Hv as (pre & kf & post & -> & Hpre & Hkf).
      exists ((key, f) :: pre), kf, post. split; [reflexivity|].
      split; [|exact Hkf]. constructor; [|exact Hpre].
      unfold field_error. simpl. rewrite Hreq, Hty. reflexivity.
    + intros (pre & kf & post & Heq & Hpre & Hkf).
      destruct pre as [|x pre]; simpl in Heq; inversion Heq; subst.
      * unfold field_error in Hkf. simpl in Hkf.
        destruct (required_missing f _); [congruence|].
        destruct (type_mismatch f _); [congruence | discriminate].
      * apply Forall_cons in Hpre as [Hx Hpre].
        unfold field_error in Hx. simpl in Hx.
        destruct (required_missing f _); [discriminate|].
        destruct (type_mismatch f _); [discriminate|].
        apply IH. exists pre, kf, post. auto.
Qed.

Lemma validate_Err defn doc e :
  validate defn doc = Err e <-> validate_fields defn doc [] = Err e.
Proof.
  unfold validate. destruct (validate_fields defn doc []); split; congruence.
Qed.

(** C8, as amended.  A missing or null value of a declared field is
    replaced by the declared default, the value a generator returns or
    the literal; the fields are checked in declaration order and the
    first one to fail decides the error.  So [validate] raises
    [RequiredFieldMissing] for a key exactly when that key is required
    and still missing or null after defaulting, and no field declared
    before it fails its checks; and a required field that is still
    missing makes [validate] fail, with that error or with the error of
    an earlier field.  (The schema declares no name of
    [Object.prototype], so that a declared key is read from the input's
    own properties.) *)
Theorem validate_required_first_offender defn doc :
  plain_schema defn = true ->
  (forall key f g, In (key, f) defn -> nullish (get doc key) = true ->
      default f = Some (Generator g) -> apply_default f doc key = g tt) /\
  (forall key f v, In (key, f) defn -> nullish (get doc key) = true ->
      default f = Some (Literal v) -> is_undefined v = false ->
      apply_default f doc key = v) /\
  (forall key f, In (key, f) defn -> nullish (get doc key) = false ->
      apply_default f doc key = get doc key) /\
  (forall k,
      validate defn doc = Err (RequiredFieldMissing k) <->
      exists pre f post,
        defn = pre ++ (k, f) :: post /\
        Forall (fun kf => field_error doc kf = None) pre /\
        required f = true /\ nullish (apply_default f doc k) = true) /\
  ((exists k f, In (k, f) defn /\ required f = true /\
                nullish (apply_default f doc k) = true) ->
   exists e, validate defn doc = Err e).
Proof.
  intros _. split; [|split; [|split; [|split]]].
  - intros key f g _ Hn Hd. unfold apply_default, has_default, materialize.
    rewrite Hn, Hd. reflexivity.
  - intros key f v _ Hn Hd Hu. unfold apply_default, has_default, materialize.
    rewrite Hn, Hd, Hu. reflexivity.
  - intros key f _ Hn. unfold apply_default. rewrite Hn. reflexivity.
  - intros k. rewrite validate_Err, validate_fields_Err. split.
    + intros (pre & [k' f] & post & Heq & Hpre & Hkf).
      unfold field_error in Hkf. simpl in Hkf.
      destruct (required_missing f _) eqn:Hreq.
      * inversion Hkf; subst k'. exists pre, f, post.
        apply andb_true_iff in Hreq. tauto.
      * destruct (type_mismatch f _); discriminate.
    + intros (pre & f & post & Heq & Hpre & Hreq & Hnull).
      exists pre, (k, f), post. split; [exact Heq|]. split; [exact Hpre|].
      unfold field_error, required_missing. simpl.
      rewrite Hreq, Hnull. reflexivity.
  - intros (k & f & Hin & Hreq & Hnull).
    destruct (validate defn doc) as [out|e] eqn:Hv; [|eauto].
    exfalso. unfold validate in Hv.
    destruct (validate_fields defn doc []) as [r|] eqn:Hr; [|discriminate].
    clear Hv out.
    assert (Hall : forall defn acc r,
               validate_fields defn doc acc = Ok r ->
               Forall (fun kf => field_error doc kf = None) defn).
    { clear. induction defn as [|[key f] defn IH]; intros acc r Hv.
      - constructor.
      - simpl in Hv. constructor.
        + unfold field_error. simpl.
          destruct (required_missing f _); [discriminate|].
          destruct (type_mismatch f _); [discriminate | reflexivity].
        + destruct (required_missing f _); [discriminate|].
          destruct (type_mismatch f _); [discriminate|].
          eapply IH. exact Hv. }
    apply Hall in Hr. rewrite Forall_forall in Hr.
    specialize (Hr (k, f)). unfold field_error, required_missing in Hr.
    simpl in Hr. rewrite Hreq, Hnull in Hr. simpl in Hr.
    assert (Hin' : (k, f) ∈ defn) by (apply list_elem_of_In; exact Hin).
    specialize (Hr Hin'). discriminate.
Qed.

(** C8 as stated fails: a required field that is missing does not yield
    [RequiredFieldMissing] when a field declared before it has a value
    of the wrong type. *)
Lemma validate_required_iff_counterexample :
  let defn := [("age", plain_field TNumber false);
               ("name", plain_field TString true)] in
  let doc := [("age", VStr "old")] in
  ~ ((exists k, validate defn doc = Err (RequiredFieldMissing k)) <->
     (exists k f, In (k, f) defn /\ required f = true /\
                  nullish (apply_default f doc k) = true)).
Proof.
  intros defn doc [_ H].
  destruct H as [k Hk].
  - exists "name", (plain_field TString true). split; [|split].
    + right. left. reflexivity.
    + reflexivity.
    + reflexivity.
  - vm_compute in Hk. discriminate.
Qed.

Lemma validate_required_first_offender_witness :
  validate AuthorDef [("books", VNull)] = Err (RequiredFieldMissing "name") /\
  apply_default (mkField TArray false (Some (Literal (VArr []))) (Some "Book")
                   false false None) [("name", VStr "K")] "books" = VArr [].
Proof.
  destruct (validate_required_first_offender AuthorDef [("books", VNull)]
              eq_refl) as (_ & _ & _ & Hiff & _).
  split.
  - apply Hiff. exists [], (plain_field TString true), (tl AuthorDef).
    repeat split; constructor.
  - destruct (validate_required_first_offender AuthorDef [("name", VStr "K")]
                eq_refl) as (_ & Hlit & _).
    apply (Hlit "books" _ (VArr [])); try reflexivity.
    right. left. reflexivity.
Defined.

(** ** The model factory *)

Lemma model_registered w name d o m :
  modelRegistry w !! name = Some m -> model w name d o = (m, w).
Proof. intros H. unfold model. rewrite H. reflexivity. Qed.

Lemma model_registers w name d o :
  modelRegistry (snd (model w name d o)) !! name = Some (fst (model w name d o)).
Proof.
  unfold model. destruct (modelRegistry w !! name) eqn:E; simpl.
  - exact E.
  - apply lookup_insert_eq.
Qed.

(** The factory never replaces a registered instance. *)
Lemma model_keeps w n m name d o :
  modelRegistry w !! n = Some m ->
  modelRegistry (snd (model w name d o)) !! n = Some m.
Proof.
  intros H. unfold model. destruct (modelRegistry w !! name) eqn:E; simpl.
  - exact H.
  - rewrite lookup_insert_ne; [exact H|]. intros ->. congruence.
Qed.

Lemma run_factory_keeps w calls n m :
  modelRegistry w !! n = Some m ->
  modelRegistry (run_factory w calls) !! n = Some m.
Proof.
  revert w. induction calls as [|[[name d] o] calls IH]; intros w H.
  - exact H.
  - simpl. apply IH. apply model_keeps. exact H.
Qed.

(** The identity of a new instance differs from that of every registered
    one. *)
Lemma new_Model_fresh w name d o n m :
  registry_ok w -> modelRegistry w !! n = Some m ->
  oid (fst (new_Model w name d o)) <> oid m.
Proof. intros Hok H. apply Hok in H. simpl. lia. Qed.

Lemma model_registry_ok w name d o :
  registry_ok w -> registry_ok (snd (model w name d o)).
Proof.
  intros Hok. unfold model. destruct (modelRegistry w !! name) eqn:E;
    [exact Hok|].
  intros n m. simpl. rewrite lookup_insert.
  destruct (decide (name = n)) as [->|Hne].
  - intros H. inversion H; subst. simpl. lia.
  - intros H. apply Hok in H. lia.
Qed.

(** C9.  Once the factory has been called with a name, a later call with
    that name, whatever its schema definition and options and whatever
    factory calls happened in between, returns the very instance of the
    first call (the same object identity and contents) and changes
    nothing. *)
Theorem model_factory_idempotent w name d1 o1 calls d2 o2 :
  let first := model w name d1 o1 in
  let w' := run_factory (snd first) calls in
  model w' name d2 o2 = (fst first, w').
Proof.
  intros first w'. apply model_registered.
  apply run_factory_keeps. apply model_registers.
Qed.

(** ** Model.update *)

Lemma things_equal_key v : is_key v = true -> things_equal v v = true.
Proof.
  destruct v; simpl; try discriminate; intros _.
  - apply Bool.eqb_reflx.
  - apply Z.eqb_refl.
  - apply String.eqb_refl.
Qed.










(** ** Sets and maps of identifiers *)

Lemma svz_eq a b : same_value_zero a b = true -> a = b.
Proof.
  destruct a, b; simpl; try discriminate; intros H; try reflexivity.
  - apply Bool.eqb_prop in H. congruence.
  - apply Z.eqb_eq in H. congruence.
  - apply String.eqb_eq in H. congruence.
Qed.

Lemma svz_sym a b : same_value_zero a b = same_value_zero b a.
Proof.
  destruct a, b; simpl; try reflexivity.
  - destruct b, b0; reflexivity.
  - apply Z.eqb_sym.
  - apply String.eqb_sym.
Qed.

Lemma svz_key k : is_key k = true -> same_value_zero k k = true.
Proof.
  destruct k; simpl; try discriminate; intros _.
  - apply Bool.eqb_reflx.
  - apply Z.eqb_refl.
  - apply String.eqb_refl.
Qed.

(** Replacing one side of a key comparison by an equal key. *)
Lemma svz_trans_l a b c :
  same_value_zero a b = true -> same_value_zero a c = same_value_zero b c.
Proof. intros H. apply svz_eq in H. subst. reflexivity. Qed.

Lemma set_add_member s y x :
  existsb (same_value_zero x) (set_add s y)
  = existsb (same_value_zero x) s || same_value_zero x y.
Proof.
  unfold set_add. destruct (existsb (same_value_zero y) s) eqn:E.
  - destruct (same_value_zero x y) eqn:Hxy.
    + apply svz_eq in Hxy. subst. rewrite E. reflexivity.
    + rewrite orb_false_r. reflexivity.
  - rewrite existsb_app. simpl. rewrite orb_false_r. reflexivity.
Qed.

Lemma fold_set_add_member ids s x :
  existsb (same_value_zero x) (fold_left set_add ids s)
  = existsb (same_value_zero x) s || existsb (same_value_zero x) ids.
Proof.
  revert s. induction ids as [|y ids IH]; intros s; simpl.
  - rewrite orb_false_r. reflexivity.
  - rewrite IH, set_add_member, orb_assoc. reflexivity.
Qed.

(** [new Set(ids)] has the keys of [ids]. *)
Lemma new_Set_member ids x :
  existsb (same_value_zero x) (new_Set ids)
  = existsb (same_value_zero x) ids.
Proof. unfold new_Set. rewrite fold_set_add_member. reflexivity. Qed.

Lemma fold_set_add_In ids s x :
  In x (fold_left set_add ids s) -> In x s \/ In x ids.
Proof.
  revert s. induction ids as [|y ids IH]; intros s; simpl; [tauto|].
  intros H. apply IH in H as [H|H]; [|tauto].
  unfold set_add in H. destruct (existsb _ s); [tauto|].
  apply in_app_or in H as [H|[H|[]]]; tauto.
Qed.

Lemma fold_set_add_grows ids s :
  length s <= length (fold_left set_add ids s).
Proof.
  revert s. induction ids as [|y ids IH]; intros s; simpl; [lia|].
  etransitivity; [|apply IH]. unfold set_add.
  destruct (existsb _ s); [lia|]. rewrite length_app. simpl. lia.
Qed.

(** The batch key set is empty exactly when no identifier was gathered. *)
Lemma new_Set_nil ids : new_Set ids = [] <-> ids = [].
Proof.
  split; [|intros ->; reflexivity].
  destruct ids as [|y ids]; [reflexivity|]. unfold new_Set. simpl.
  intros H. pose proof (fold_set_add_grows ids (set_add [] y)) as Hl.
  rewrite H in Hl. simpl in Hl. lia.
Qed.

Lemma distinct_keys_snoc s y :
  distinct_keys s = true -> existsb (same_value_zero y) s = false ->
  distinct_keys (s ++ [y]) = true.
Proof.
  induction s as [|x s IH]; simpl; intros Hd Hy; [reflexivity|].
  apply andb_true_iff in Hd as [Hx Hd].
  apply orb_false_iff in Hy as [Hyx Hy].
  rewrite existsb_app. simpl. rewrite svz_sym, Hyx, orb_false_r, Hx.
  simpl. apply IH; assumption.
Qed.

Lemma fold_set_add_distinct ids s :
  distinct_keys s = true -> distinct_keys (fold_left set_add ids s) = true.
Proof.
  revert s. induction ids as [|y ids IH]; intros s Hd; simpl; [exact Hd|].
  apply IH. unfold set_add.
  destruct (existsb (same_value_zero y) s) eqn:E; [exact Hd|].
  apply distinct_keys_snoc; assumption.
Qed.

(** [new Set(ids)] holds no key twice. *)
Lemma new_Set_distinct ids : distinct_keys (new_Set ids) = true.
Proof. apply fold_set_add_distinct. reflexivity. Qed.

Lemma map_get_map_set m k v k' :
  map_get (map_set m k v) k'
  = if same_value_zero k k' then v else map_get m k'.
Proof.
  induction m as [|[a x] m IH]; simpl.
  - reflexivity.
  - destruct (same_value_zero a k) eqn:Hak; simpl.
    + rewrite (svz_trans_l _ _ k' Hak).
      destruct (same_value_zero k k'); reflexivity.
    + destruct (same_value_zero a k') eqn:Hak'.
      * destruct (same_value_zero k k') eqn:Hkk'; [|reflexivity].
        apply svz_eq in Hkk'. subst. congruence.
      * apply IH.
Qed.

Lemma new_Map_snoc entries k v :
  new_Map (entries ++ [(k, v)]) = map_set (new_Map entries) k v.
Proof. unfold new_Map. rewrite fold_left_app. reflexivity. Qed.

(** Reading the lookup map gives the last fetched document with the
    key. *)
Lemma map_get_lookup_map fetched k :
  map_get (lookup_map fetched) k = last_with_id VUndefined fetched k.
Proof.
  unfold lookup_map, last_with_id.
  induction fetched as [|d fetched IH] using rev_ind.
  - reflexivity.
  - rewrite map_app, fold_left_app. simpl.
    rewrite new_Map_snoc, map_get_map_set, IH. reflexivity.
Qed.

Lemma last_with_id_none acc l k :
  (forall d, In d l -> same_value_zero (get d "_id") k = false) ->
  last_with_id acc l k = acc.
Proof.
  revert acc. induction l as [|d l IH]; intros acc H; simpl; [reflexivity|].
  rewrite (H d) by (left; reflexivity). apply IH.
  intros d' Hd'. apply H. right. exact Hd'.
Qed.

(** ** The batched lookup *)

Lemma ids_ok_In c d : ids_ok c = true -> In d c -> is_key (get d "_id") = true.
Proof. unfold ids_ok. rewrite forallb_forall. auto. Qed.

Lemma obj_put_In obj k d s x :
  In (s, x) (obj_put obj k d) -> (s, x) = (k, d) \/ In (s, x) obj.
Proof.
  induction obj as [|[k' d'] obj IH]; simpl.
  - intros [H|[]]. left. congruence.
  - destruct (String.eqb k' k); simpl.
    + intros [H|H]; [left; congruence | right; right; exact H].
    + intros [H|H]; [right; left; exact H|].
      destruct (IH H) as [E|E]; auto.
Qed.

Lemma obj_put_has obj k d : In (k, d) (obj_put obj k d).
Proof.
  induction obj as [|[k' d'] obj IH]; simpl; [left; reflexivity|].
  destruct (String.eqb k' k); simpl; auto.
Qed.

Lemma obj_put_keeps_key obj k d s x :
  In (s, x) obj -> exists x', In (s, x') (obj_put obj k d).
Proof.
  induction obj as [|[k' d'] obj IH]; simpl; [intros []|].
  destruct (String.eqb_spec k' k) as [->|Hne]; simpl.
  - intros [H|H].
    + inversion H; subst. exists d. left. reflexivity.
    + exists x. right. exact H.
  - intros [H|H].
    + exists x. left. exact H.
    + destruct (IH H) as [x' Hx']. exists x'. right. exact Hx'.
Qed.

Lemma obj_assign_In obj k d s x :
  In (s, x) (obj_assign obj k d) -> (s, x) = (k, d) \/ In (s, x) obj.
Proof.
  unfold obj_assign. destruct (String.eqb k "__proto__"); [auto|].
  apply obj_put_In.
Qed.

Lemma obj_assign_keeps_key obj k d s x :
  In (s, x) obj -> exists x', In (s, x') (obj_assign obj k d).
Proof.
  unfold obj_assign. destruct (String.eqb k "__proto__"); [eauto|].
  apply obj_put_keeps_key.
Qed.

(** Every candidate was found by the index, and is filed under its own
    identifier. *)
Lemma fold_put_In (l : list document) acc s x :
  In (s, x)
     (fold_left (fun res d => obj_assign res (js_String (get d "_id")) d)
                l acc) ->
  In (s, x) acc \/ (In x l /\ s = js_String (get x "_id")).
Proof.
  revert acc. induction l as [|d l IH]; intros acc H; simpl in *.
  - left. exact H.
  - apply IH in H as [H|[H1 H2]]; [|right; auto].
    apply obj_assign_In in H as [H|H]; [|left; exact H].
    inversion H; subst. right. auto.
Qed.

Lemma fold_put_key (l : list document) acc s :
  s <> "__proto__" ->
  (exists x, In (s, x) acc) \/
  (exists d, In d l /\ s = js_String (get d "_id")) ->
  exists x,
    In (s, x)
       (fold_left (fun res d => obj_assign res (js_String (get d "_id")) d)
                  l acc).
Proof.
  intros Hs. revert acc. induction l as [|d l IH]; intros acc H; simpl.
  - destruct H as [H|(d & [] & _)]. exact H.
  - apply IH. destruct H as [[x Hx]|(d' & [<-|Hd'] & ->)].
    + left. eapply obj_assign_keeps_key. exact Hx.
    + left. exists d. unfold obj_assign.
      apply String.eqb_neq in Hs. rewrite Hs. apply obj_put_has.
    + right. exists d'. auto.
Qed.

Lemma insert_by_index_In n e l x :
  In x (insert_by_index n e l) <-> x = (n, e) \/ In x l.
Proof.
  induction l as [|[m e'] l IH]; simpl.
  - split; [intros [H|[]]; auto | intros [H|[]]; auto].
  - destruct (n <? m)%N; simpl.
    + split; [intros [H|H]; auto | intros [H|H]; auto].
    + rewrite IH. split.
      * intros [H|[H|H]]; auto.
      * intros [H|[H|H]]; auto.
Qed.

(** [Object.keys] lists every property, and only properties. *)
Lemma own_keys_order_In obj e : In e (own_keys_order obj) <-> In e obj.
Proof.
  unfold own_keys_order. rewrite in_app_iff, filter_In, in_map_iff.
  assert (Hidx : forall n, In (n, e)
            (fold_right (fun e acc => match array_index (fst e) with
                                      | Some n => insert_by_index n e acc
                                      | None => acc
                                      end) [] obj)
            <-> In e obj /\ array_index (fst e) = Some n).
  { intros n. induction obj as [|e' obj IH]; simpl; [tauto|].
    destruct (array_index (fst e')) as [m|] eqn:E.
    - rewrite insert_by_index_In, IH. split.
      + intros [H|[H1 H2]]; [inversion H; subst; auto | auto].
      + intros [[->|H1] H2]; [left; congruence | auto].
    - rewrite IH. split.
      + intros [H1 H2]. auto.
      + intros [[->|H1] H2]; [congruence | auto]. }
  split.
  - intros [([n e'] & He & Hin)|[Hin _]]; [|exact Hin].
    simpl in He. subst e'. apply Hidx in Hin. tauto.
  - intros Hin. destruct (array_index (fst e)) as [n|] eqn:E.
    + left. exists (n, e). split; [reflexivity|]. apply Hidx. auto.
    + right. auto.
Qed.

Lemma index_matching_In docs keys d :
  In d (index_matching docs keys) -> In d docs.
Proof.
  unfold index_matching. intros H. apply in_map_iff in H as ([s x] & <- & H).
  apply (proj1 (own_keys_order_In _ _)) in H.
  apply fold_put_In in H as [[]|[H _]].
  apply in_flat_map in H as (k & _ & H). apply filter_In in H as [H _].
  exact H.
Qed.

(** What the batched lookup returns are documents of the referenced
    collection that match the filter. *)
Lemma batch_fetch_In rm keys d :
  In d (batch_fetch rm keys) ->
  In d (stored (db rm)) /\ id_in keys d = true.
Proof.
  unfold batch_fetch, db_find_ids. intros H. apply filter_In in H as [H Hm].
  split; [|exact Hm]. eapply index_matching_In. exact H.
Qed.

Lemma distinct_id_strings_inj c d d' :
  distinct_id_strings c = true -> In d c -> In d' c ->
  js_String (get d "_id") = js_String (get d' "_id") -> d = d'.
Proof.
  induction c as [|z c IH]; intros Hdis Hd Hd' E; [destruct Hd|].
  simpl in Hdis. apply andb_true_iff in Hdis as [Hfresh Hdis].
  apply negb_true_iff in Hfresh.
  assert (Hno : forall y, In y c ->
            js_String (get z "_id") <> js_String (get y "_id")).
  { intros y Hy Hs.
    assert (Hex : existsb (fun d' => String.eqb (js_String (get z "_id"))
                                       (js_String (get d' "_id"))) c = true).
    { apply existsb_exists. exists y. split; [exact Hy|].
      apply String.eqb_eq. exact Hs. }
    congruence. }
  destruct Hd as [<-|Hd], Hd' as [<-|Hd'].
  - reflexivity.
  - exfalso. exact (Hno _ Hd' E).
  - exfalso. apply (Hno _ Hd). symmetry. exact E.
  - apply IH; assumption.
Qed.

Lemma id_leaves_key k : isArray k = false -> id_leaves k = [k].
Proof. destruct k; simpl; try reflexivity; discriminate. Qed.

(** Where no two identifiers are written alike, the index gives every
    document whose identifier is among the keys. *)
Lemma index_matching_complete docs keys d k :
  distinct_id_strings docs = true ->
  js_String (get d "_id") <> "__proto__" ->
  In d docs -> In k keys -> isArray k = false ->
  things_equal (get d "_id") k = true ->
  In d (index_matching docs keys).
Proof.
  intros Hdis Hproto Hd Hk Harr Heq.
  assert (Hfound : In d (flat_map (index_search docs)
                                  (flat_map id_leaves keys))).
  { apply in_flat_map. exists k. split.
    - apply in_flat_map. exists k. split; [exact Hk|].
      rewrite id_leaves_key by exact Harr. left. reflexivity.
    - apply filter_In. auto. }
  destruct (fold_put_key (flat_map (index_search docs)
                                   (flat_map id_leaves keys)) []
                         (js_String (get d "_id")) Hproto) as [x Hx].
  { right. exists d. auto. }
  assert (Hxd : x = d).
  { pose proof Hx as Hx'. apply fold_put_In in Hx' as [[]|[Hin Hs]].
    apply (distinct_id_strings_inj docs); try assumption.
    - apply in_flat_map in Hin as (k' & _ & Hin).
      apply filter_In in Hin as [Hin _]. exact Hin.
    - symmetry. exact Hs. }
  subst x. unfold index_matching. apply in_map_iff.
  exists (js_String (get d "_id"), d). split; [reflexivity|].
  apply own_keys_order_In. exact Hx.
Qed.

Lemma store_ok_parts c :
  store_ok c = true ->
  ids_ok c = true /\ distinct_id_strings c = true /\
  forall d, In d c -> js_String (get d "_id") <> "__proto__".
Proof.
  unfold store_ok. intros H.
  apply andb_true_iff in H as [H Hp]. apply andb_true_iff in H as [Hi Hd].
  split; [exact Hi|]. split; [exact Hd|].
  intros d Hin. rewrite forallb_forall in Hp. specialize (Hp d Hin).
  apply andb_true_iff in Hp as [Hp _].
  apply negb_true_iff, String.eqb_neq in Hp. exact Hp.
Qed.

Lemma batch_fetch_complete rm keys x :
  store_ok (stored (db rm)) = true ->
  In x (stored (db rm)) ->
  existsb (same_value_zero (get x "_id")) keys = true ->
  In x (batch_fetch rm keys).
Proof.
  intros Hok Hx Hk. apply store_ok_parts in Hok as (Hids & Hdis & Hproto).
  pose proof (ids_ok_In _ _ Hids Hx) as Hkey.
  apply existsb_exists in Hk as (u & Hu & Hsv). apply svz_eq in Hsv.
  subst u. unfold batch_fetch, db_find_ids. apply filter_In. split.
  - apply (index_matching_complete _ _ _ (get x "_id")); try assumption.
    + apply Hproto, Hx.
    + destruct (get x "_id"); simpl in *; congruence.
    + apply things_equal_key, Hkey.
  - unfold id_in. apply existsb_exists. exists (get x "_id").
    split; [exact Hu | apply things_equal_key, Hkey].
Qed.

Lemma last_with_id_cases acc l k :
  last_with_id acc l k = acc \/
  exists x, In x l /\ get x "_id" = k /\ last_with_id acc l k = VObj x.
Proof.
  revert acc. induction l as [|d l IH]; intros acc; simpl; [left; reflexivity|].
  destruct (same_value_zero (get d "_id") k) eqn:E.
  - destruct (IH (VObj d)) as [H|(x & Hx & Hid & H)].
    + right. exists d. apply svz_eq in E. auto.
    + right. exists x. auto.
  - destruct (IH acc) as [H|(x & Hx & Hid & H)].
    + left. exact H.
    + right. exists x. auto.
Qed.

Lemma last_with_id_hit acc l k x :
  In x l -> same_value_zero (get x "_id") k = true ->
  exists y, In y l /\ get y "_id" = k /\ last_with_id acc l k = VObj y.
Proof.
  revert acc. induction l as [|d l IH]; intros acc Hx Hsv; [destruct Hx|].
  simpl. destruct Hx as [->|Hx].
  - rewrite Hsv.
    destruct (last_with_id_cases (VObj x) l k) as [H|(y & Hy & Hid & H)].
    + exists x. apply svz_eq in Hsv. auto.
    + exists y. auto.
  - destruct (IH (if same_value_zero (get d "_id") k then VObj d else acc)
                 Hx Hsv) as (y & Hy & Hid & H).
    exists y. auto.
Qed.

(** A value that no document of the referenced collection carries as its
    identifier is missed by the lookup map. *)
Lemma map_get_miss rm keys k :
  (forall d, In d (stored (db rm)) -> get d "_id" <> k) ->
  map_get (lookup_map (batch_fetch rm keys)) k = VUndefined.
Proof.
  intros H. rewrite map_get_lookup_map.
  apply last_with_id_none. intros d Hd. apply batch_fetch_In in Hd as [Hd _].
  destruct (same_value_zero (get d "_id") k) eqn:E; [|reflexivity].
  apply svz_eq in E. exfalso. exact (H d Hd E).
Qed.

(** Over a collection with identifiers as the engine assigns them, the
    lookup map resolves every key of the batch, and misses every value
    that is no identifier. *)
Lemma map_get_resolve rm keys k :
  store_ok (stored (db rm)) = true ->
  existsb (same_value_zero k) keys = true \/ is_key k = false ->
  map_get (lookup_map (batch_fetch rm keys)) k = resolve (stored (db rm)) k.
Proof.
  intros Hok Hk.
  destruct (store_ok_parts _ Hok) as (Hids & Hdis & _).
  unfold resolve, lookup_id.
  destruct (List.find _ (stored (db rm))) as [x|] eqn:Hf.
  - apply find_some in Hf as [Hx Hsv].
    pose proof (svz_eq _ _ Hsv) as Hid.
    pose proof (ids_ok_In _ _ Hids Hx) as Hkey. rewrite Hid in Hkey.
    destruct Hk as [Hk|Hk]; [|congruence].
    assert (Hfx : In x (batch_fetch rm keys)).
    { apply batch_fetch_complete; try assumption. rewrite Hid. exact Hk. }
    rewrite map_get_lookup_map.
    destruct (last_with_id_hit VUndefined _ k x Hfx Hsv)
      as (y & Hy & Hyid & Hlast).
    rewrite Hlast. f_equal. f_equal.
    apply batch_fetch_In in Hy as [Hy _].
    apply (distinct_id_strings_inj (stored (db rm))); try assumption.
    congruence.
  - apply map_get_miss. intros d Hd E.
    pose proof (find_none _ _ Hf d Hd) as Hn. simpl in Hn.
    rewrite E in Hn. apply (ids_ok_In _ _ Hids) in Hd. rewrite E in Hd.
    rewrite svz_key in Hn by exact Hd. discriminate.
Qed.

Lemma resolved_docs_filter c (m : js_map) xs :
  (forall x, In x xs -> map_get m x = resolve c x) ->
  List.filter truthy (List.map (map_get m) xs) = resolved_docs c xs.
Proof.
  induction xs as [|x xs IH]; intros H; simpl; [reflexivity|].
  rewrite (H x) by (left; reflexivity). unfold resolve.
  destruct (lookup_id c x); simpl;
    rewrite IH by (intros y Hy; apply H; right; exact Hy); reflexivity.
Qed.

(** ** The rounds of populate *)

Lemma populate_field_run reg m f docs t :
  populate_field reg m f docs t =
  match ref_model reg m f with
  | Err e => (Err e, t)
  | Ok (r, rm) =>
      match batch_keys f docs with
      | [] => (Ok docs, t)
      | k :: keys =>
          (Ok (List.map (assign_populated f
                           (lookup_map (batch_fetch rm (k :: keys)))) docs),
           t ++ [Lookup f r (k :: keys)])
      end
  end.
Proof.
  unfold populate_field, ref_model, batch_keys.
  destruct (field_ref (schema m) f) as [r|]; [|reflexivity].
  destruct (reg !! r) as [rm|]; [|reflexivity].
  destruct (new_Set (gather_ids f docs)); reflexivity.
Qed.

Lemma same_on_refl g d : same_on g d d.
Proof. split; reflexivity. Qed.

Lemma same_on_trans g d1 d2 d3 :
  same_on g d1 d2 -> same_on g d2 d3 -> same_on g d1 d3.
Proof. intros [H1 H2] [H3 H4]. split; congruence. Qed.

Lemma assign_populated_frame f map d g :
  g <> f -> same_on g d (assign_populated f map d).
Proof.
  intros Hne. unfold assign_populated, same_on.
  rewrite get_set_ne, has_key_set by congruence.
  assert (E : String.eqb f g = false) by (apply String.eqb_neq; congruence).
  rewrite E. split; reflexivity.
Qed.

Lemma gather_ids_map f (h : document -> document) docs :
  (forall d, get (h d) f = get d f) ->
  gather_ids f (List.map h docs) = gather_ids f docs.
Proof.
  intros H. unfold gather_ids. induction docs as [|d docs IH]; simpl.
  - reflexivity.
  - rewrite H, IH. reflexivity.
Qed.

(** One successful round rewrites every document of the result set by
    the same function: it leaves the other fields alone and gives the
    populated field the value [field_after]. *)
Lemma populate_field_round reg m f docs t docs1 t1 :
  populate_field reg m f docs t = (Ok docs1, t1) ->
  exists r rm (h : document -> document),
    ref_model reg m f = Ok (r, rm) /\
    docs1 = List.map h docs /\
    (forall d g, g <> f -> same_on g d (h d)) /\
    (forall d, get (h d) f = field_after rm (batch_keys f docs) (get d f) /\
               has_key (h d) f
               = present_after (batch_keys f docs) (has_key d f)).
Proof.
  rewrite populate_field_run.
  destruct (ref_model reg m f) as [[r rm]|e]; [|discriminate].
  destruct (batch_keys f docs) as [|k keys] eqn:Hk; intros H;
    inversion H; subst; clear H.
  - exists r, rm, (fun d => d). split; [reflexivity|].
    split; [symmetry; apply map_id|].
    split; [intros; apply same_on_refl|]. intros d. split; reflexivity.
  - exists r, rm,
      (assign_populated f (lookup_map (batch_fetch rm (k :: keys)))).
    split; [reflexivity|]. split; [reflexivity|].
    split; [intros d g Hg; apply assign_populated_frame; exact Hg|].
    intros d. unfold assign_populated.
    rewrite get_set_eq, has_key_set, String.eqb_refl. split; reflexivity.
Qed.

Lemma Forall2_map_left {A B C} (R : B -> C -> Prop) (h : A -> B) l l' :
  Forall2 R (List.map h l) l' -> Forall2 (fun a c => R (h a) c) l l'.
Proof.
  revert l'. induction l as [|a l IH]; intros l' H; inversion H; subst.
  - constructor.
  - constructor; [assumption | apply IH; assumption].
Qed.

Lemma Forall2_diag {A} (R : A -> A -> Prop) l :
  (forall a, R a a) -> Forall2 R l l.
Proof. intros H. induction l; constructor; auto. Qed.

Lemma Forall2_weaken {A B} (R S : A -> B -> Prop) l l' :
  (forall a b, R a b -> S a b) -> Forall2 R l l' -> Forall2 S l l'.
Proof. intros H HF. induction HF; constructor; auto. Qed.

(** What a successful populate does to each document: a field that was
    not requested is left alone; a requested field was configured, and
    holds the value its own round gave it, computed from the value and
    the batch key set of the result set as it was fetched. *)
Lemma _populate_outcome reg m fields docs t docs' t' :
  NoDup fields ->
  _populate reg m fields docs t = (Ok docs', t') ->
  Forall2 (fun d d' =>
    (forall g, ~ In g fields -> same_on g d d') /\
    (forall f, In f fields ->
       exists r rm,
         ref_model reg m f = Ok (r, rm) /\
         get d' f = field_after rm (batch_keys f docs) (get d f) /\
         has_key d' f = present_after (batch_keys f docs) (has_key d f)))
    docs docs'.
Proof.
  revert docs t. induction fields as [|f0 rest IH]; intros docs t Hnd Hrun.
  - simpl in Hrun. inversion Hrun; subst. apply Forall2_diag.
    intros d. split; [intros; apply same_on_refl | intros f []].
  - apply NoDup_cons in Hnd as [Hf0 Hnd].
    simpl in Hrun. unfold bind in Hrun.
    destruct (populate_field reg m f0 docs t) as [[docs1|e] t1] eqn:Hround;
      [|discriminate].
    apply populate_field_round in Hround
      as (r0 & rm0 & h & Hcfg & -> & Hframe & Hval).
    apply IH in Hrun; [|exact Hnd].
    apply Forall2_map_left in Hrun.
    eapply Forall2_weaken; [|exact Hrun].
    intros d d' [Hother Hreq]. split.
    + intros g Hg. apply same_on_trans with (h d).
      * apply Hframe. intros ->. apply Hg. left. reflexivity.
      * apply Hother. intros Hin. apply Hg. right. exact Hin.
    + intros f [<-|Hin].
      * exists r0, rm0. split; [exact Hcfg|].
        destruct (Hother f0) as [Hg Hh].
        { intros Hin. apply Hf0, list_elem_of_In. exact Hin. }
        destruct (Hval d) as [Hv Hp]. split; congruence.
      * assert (Hne : f <> f0).
        { intros ->. apply Hf0, list_elem_of_In. exact Hin. }
        destruct (Hreq f Hin) as (r & rm & Hc & Hv & Hp).
        exists r, rm. split; [exact Hc|].
        unfold batch_keys in *.
        rewrite gather_ids_map in Hv, Hp
          by (intros x; apply (Hframe x f Hne)).
        destruct (Hframe d f Hne) as [Hg Hh].
        rewrite Hg in Hv. rewrite Hh in Hp. split; assumption.
Qed.

(** Populate succeeds when every requested field is configured. *)
Lemma _populate_succeeds reg m fields docs t :
  Forall (fun f => configured reg m f = true) fields ->
  exists docs' t', _populate reg m fields docs t = (Ok docs', t').
Proof.
  revert docs t. induction fields as [|f rest IH]; intros docs t Hcfg.
  - exists docs, t. reflexivity.
  - apply Forall_cons in Hcfg as [Hf Hrest].
    simpl. unfold bind. rewrite populate_field_run.
    unfold configured in Hf.
    destruct (ref_model reg m f) as [[r rm]|]; [|discriminate].
    destruct (batch_keys f docs); apply IH; exact Hrest.
Qed.

(** Populate fails with the configuration error of the first requested
    field that is not configured, whatever the result set, and has not
    looked anything up for that field. *)
Lemma _populate_config_error reg m pre f post docs t e :
  Forall (fun g => configured reg m g = true) pre ->
  ref_model reg m f = Err e ->
  ~ In f pre ->
  fst (_populate reg m (pre ++ f :: post) docs t) = Err e /\
  lookups_for f (snd (_populate reg m (pre ++ f :: post) docs t))
  = lookups_for f t.
Proof.
  revert docs t. induction pre as [|g pre IH]; intros docs t Hcfg He Hni.
  - simpl. unfold bind. rewrite populate_field_run, He. split; reflexivity.
  - apply Forall_cons in Hcfg as [Hg Hpre].
    assert (Hne : g <> f) by (intros ->; apply Hni; left; reflexivity).
    assert (Hni' : ~ In f pre) by (intros H; apply Hni; right; exact H).
    simpl. unfold bind. rewrite populate_field_run.
    unfold configured in Hg.
    destruct (ref_model reg m g) as [[r rm]|]; [|discriminate].
    destruct (batch_keys g docs) as [|k keys].
    + apply IH; assumption.
    + destruct (IH (List.map (assign_populated g
                                (lookup_map (batch_fetch rm (k :: keys))))
                             docs)
                   (t ++ [Lookup g r (k :: keys)]) Hpre He Hni')
        as [H1 H2].
      split; [exact H1|]. rewrite H2. unfold lookups_for.
      rewrite List.filter_app. simpl.
      apply String.eqb_neq in Hne. rewrite Hne. apply app_nil_r.
Qed.

(** ** The query builder *)

Lemma includes_In fields f : includes fields f = true <-> In f fields.
Proof.
  unfold includes. rewrite existsb_exists. split.
  - intros (x & Hx & E). apply String.eqb_eq in E. subst. exact Hx.
  - intros H. exists f. split; [exact H | apply String.eqb_refl].
Qed.

Lemma populate_NoDup q f :
  NoDup (populateFields q) -> NoDup (populateFields (populate q f)).
Proof.
  intros H. unfold populate.
  destruct (includes (populateFields q) f) eqn:E; [exact H|]. simpl.
  apply NoDup_app. split; [exact H|]. split; [|apply NoDup_singleton].
  intros x Hx Hx'. apply list_elem_of_In in Hx, Hx'.
  destruct Hx' as [<-|[]].
  apply includes_In in Hx. congruence.
Qed.

Lemma populate_all_NoDup q fields :
  NoDup (populateFields q) -> NoDup (populateFields (populate_all q fields)).
Proof.
  revert q. induction fields as [|f fields IH]; intros q H; simpl.
  - exact H.
  - apply IH, populate_NoDup, H.
Qed.

Lemma populate_keeps q f :
  q_model (populate q f) = q_model q /\ query (populate q f) = query q /\
  single (populate q f) = single q /\ sortObj (populate q f) = sortObj q /\
  skipCount (populate q f) = skipCount q /\
  limitCount (populate q f) = limitCount q.
Proof.
  unfold populate. destruct (includes (populateFields q) f);
    repeat split; reflexivity.
Qed.

(** ** Configuration errors *)

Lemma bind_Err {A B} (c : M A) (k : A -> M B) t e :
  fst (c t) = Err e -> fst (bind c k t) = Err e.
Proof.
  unfold bind. destruct (c t) as [[a|e'] t']; simpl; congruence.
Qed.

Lemma ref_model_Err reg m f e :
  ref_model reg m f = Err e ->
  (e = MissingRef f /\ field_ref (schema m) f = None) \/
  (exists r, e = UnknownModel r /\ field_ref (schema m) f = Some r /\
             reg !! r = None).
Proof.
  unfold ref_model. destruct (field_ref (schema m) f) as [r|] eqn:Hr.
  - destruct (reg !! r) eqn:Hreg; [discriminate|].
    intros H. inversion H. right. exists r. auto.
  - intros H. inversion H. left. auto.
Qed.

(** C6, as amended.  Populate checks the requested fields in the order
    they were requested, each before it gathers any identifier for it:
    the first field without a [ref] makes it fail with [MissingRef], the
    first whose [ref] names no registered model with [UnknownModel], for
    every result set, the empty one included, and without a lookup for
    that field.  So a query in many mode, and a query in single mode that
    has a sort or a skip or finds a document, fails with that error.  A
    query in single mode without sort and skip that finds no document
    returns [null] and checks nothing. *)
Theorem exec_configuration_error reg q t pre f post e :
  populateFields q = pre ++ f :: post ->
  Forall (fun g => configured reg (q_model q) g = true) pre ->
  ~ In f pre ->
  ref_model reg (q_model q) f = Err e ->
  ((e = MissingRef f /\ field_ref (schema (q_model q)) f = None) \/
   (exists r, e = UnknownModel r /\
              field_ref (schema (q_model q)) f = Some r /\
              reg !! r = None)) /\
  (forall docs t0,
      fst (_populate reg (q_model q) (populateFields q) docs t0) = Err e /\
      lookups_for f (snd (_populate reg (q_model q) (populateFields q)
                            docs t0))
      = lookups_for f t0) /\
  (single q = false -> fst (exec reg q t) = Err e) /\
  (single q = true ->
   sortObj q <> None \/ skipCount q <> None \/
   db_findOne (stored (db (q_model q))) (query q) <> None ->
   fst (exec reg q t) = Err e) /\
  (single q = true -> sortObj q = None -> skipCount q = None ->
   db_findOne (stored (db (q_model q))) (query q) = None ->
   exec reg q t = (Ok (One None), t)).
Proof.
  intros Hfields Hpre Hni He.
  assert (Hpop : forall docs t0,
             fst (_populate reg (q_model q) (populateFields q) docs t0)
             = Err e /\
             lookups_for f (snd (_populate reg (q_model q) (populateFields q)
                                   docs t0))
             = lookups_for f t0).
  { intros docs0 t0. rewrite Hfields.
    apply _populate_config_error; assumption. }
  split; [apply ref_model_Err; exact He|].
  split; [exact Hpop|].
  assert (Hmany : fst (_execMany reg q t) = Err e)
    by (unfold _execMany; apply Hpop).
  split; [|split].
  - intros Hs. unfold exec. rewrite Hs. apply bind_Err. exact Hmany.
  - intros Hs Hcase. unfold exec. rewrite Hs. apply bind_Err.
    unfold _execOne.
    destruct (bool_decide (sortObj q <> None)
              || bool_decide (skipCount q <> None)) eqn:Hb.
    + apply bind_Err. exact Hmany.
    + apply orb_false_iff in Hb as [Hb1 Hb2].
      apply bool_decide_eq_false in Hb1, Hb2.
      destruct (db_findOne (stored (db (q_model q))) (query q)) as [doc|].
      * apply bind_Err. apply Hpop.
      * exfalso. destruct Hcase as [H|[H|H]]; [tauto | tauto | congruence].
  - intros Hs Hsort Hskip Hnone. unfold exec, _execOne.
    rewrite Hs, Hsort, Hskip, Hnone. reflexivity.
Qed.

Lemma exec_configuration_error_witness :
  fst (exec sample_registry
         (populate (populate (Model_find Book (fun _ => false)) "author")
                   "title") [])
  = Err (MissingRef "title").
Proof.
  refine (proj1 (proj2 (proj2
    (exec_configuration_error sample_registry
       (populate (populate (Model_find Book (fun _ => false)) "author")
                 "title")
       [] ["author"] "title" [] (MissingRef "title") eq_refl _ _ eq_refl)))
    eq_refl).
  - constructor; [reflexivity | constructor].
  - intros [H|[]]. discriminate.
Defined.

(** C6 as stated fails: a query in single mode that finds no document
    returns [null], although it asks to populate a field without [ref]. *)
Lemma exec_configuration_error_counterexample :
  let q := populate (Model_findOne Book (fun _ => false)) "title" in
  In "title" (populateFields q) /\
  field_ref (schema (q_model q)) "title" = None /\
  exec sample_registry q [] = (Ok (One None), []) /\
  fst (exec sample_registry q []) <> Err (MissingRef "title").
Proof.
  repeat split; [left; reflexivity | discriminate].
Qed.

(** ** The lookups of an execution *)

Lemma lookup_ok_weaken reg m f0 rest h docs e :
  (forall d g, g <> f0 -> same_on g d (h d)) ->
  ~ In f0 rest ->
  lookup_ok reg m rest (List.map h docs) e ->
  lookup_ok reg m (f0 :: rest) docs e.
Proof.
  intros Hframe Hf0. destruct e as [f r keys].
  intros (Hin & Hrm & Hkeys & Hne & Hdis).
  assert (Hf : f <> f0) by (intros ->; tauto).
  repeat split; try assumption.
  - right. exact Hin.
  - rewrite Hkeys. unfold batch_keys. rewrite gather_ids_map; [reflexivity|].
    intros d. apply (Hframe d f Hf).
Qed.

(** The trace of a populate: it only grows; every lookup is the batched
    lookup of a requested field; a field that was not requested, or
    whose batch key set is empty, gets none, and every field at most
    one. *)
Lemma _populate_trace reg m fields docs t :
  NoDup fields ->
  exists evs,
    snd (_populate reg m fields docs t) = t ++ evs /\
    Forall (lookup_ok reg m fields docs) evs /\
    (forall f, ~ In f fields -> lookups_for f evs = []) /\
    (forall f, batch_keys f docs = [] -> lookups_for f evs = []) /\
    (forall f, length (lookups_for f evs) <= 1).
Proof.
  revert docs t. induction fields as [|f0 rest IH]; intros docs t Hnd.
  - exists []. simpl. rewrite app_nil_r.
    repeat split; auto.
  - apply NoDup_cons in Hnd as [Hf0 Hnd].
    assert (Hf0' : ~ In f0 rest)
      by (intros H; apply Hf0, list_elem_of_In; exact H).
    simpl. unfold bind. rewrite populate_field_run.
    destruct (ref_model reg m f0) as [[r rm]|e] eqn:Hcfg.
    2:{ exists []. simpl. rewrite app_nil_r. repeat split; auto. }
    destruct (batch_keys f0 docs) as [|k keys] eqn:Hk.
    + destruct (IH docs t Hnd) as (evs & Ht & Hall & Hnot & Hempty & Hone).
      exists evs. split; [exact Ht|]. split; [|split; [|split]].
      * eapply Forall_impl; [exact Hall|].
        intros e He. rewrite <- (map_id docs) in He.
        eapply lookup_ok_weaken; [|exact Hf0'|exact He].
        intros; apply same_on_refl.
      * intros f Hf. apply Hnot. intros H. apply Hf. right. exact H.
      * exact Hempty.
      * exact Hone.
    + set (h := assign_populated f0 (lookup_map (batch_fetch rm (k :: keys)))).
      assert (Hframe : forall d g, g <> f0 -> same_on g d (h d))
        by (intros d g Hg; apply assign_populated_frame; exact Hg).
      destruct (IH (List.map h docs) (t ++ [Lookup f0 r (k :: keys)]) Hnd)
        as (evs & Ht & Hall & Hnot & Hempty & Hone).
      exists (Lookup f0 r (k :: keys) :: evs).
      split; [rewrite Ht, <- app_assoc; reflexivity|].
      assert (Hnone : lookups_for f0 evs = []) by (apply Hnot; exact Hf0').
      split; [|split; [|split]].
      * constructor.
        -- repeat split.
           ++ left. reflexivity.
           ++ exists rm. exact Hcfg.
           ++ symmetry. exact Hk.
           ++ discriminate.
           ++ rewrite <- Hk. apply new_Set_distinct.
        -- eapply Forall_impl; [exact Hall|].
           intros e He. eapply lookup_ok_weaken; eassumption.
      * intros f Hf. simpl.
        destruct (String.eqb_spec f0 f) as [->|Hne].
        -- exfalso. apply Hf. left. reflexivity.
        -- apply Hnot. intros H. apply Hf. right. exact H.
      * intros f Hf. simpl.
        destruct (String.eqb_spec f0 f) as [->|Hne]; [congruence|].
        apply Hempty. unfold batch_keys in *.
        rewrite gather_ids_map; [exact Hf|].
        intros d. apply (Hframe d f). congruence.
      * intros f. simpl.
        destruct (String.eqb_spec f0 f) as [->|Hne].
        -- simpl. rewrite Hnone. simpl. lia.
        -- apply Hone.
Qed.

Lemma lookups_split f evs :
  length evs = length (lookups_for f evs) + length (lookups_except f evs).
Proof.
  induction evs as [|[g r keys] evs IH]; simpl; [reflexivity|].
  destruct (String.eqb g f); simpl; lia.
Qed.

Lemma lookups_for_except_same f evs :
  lookups_for f (lookups_except f evs) = [].
Proof.
  induction evs as [|[g r keys] evs IH]; simpl; [reflexivity|].
  destruct (String.eqb g f) eqn:E; simpl; [exact IH|].
  rewrite E. exact IH.
Qed.

Lemma lookups_for_except_other f g evs :
  f <> g -> lookups_for f (lookups_except g evs) = lookups_for f evs.
Proof.
  intros Hne. induction evs as [|[h r keys] evs IH]; simpl; [reflexivity|].
  destruct (String.eqb_spec h g) as [->|Hg]; simpl.
  - apply String.eqb_neq in Hne. rewrite String.eqb_sym, Hne. exact IH.
  - rewrite IH. reflexivity.
Qed.

(** A trace with at most one lookup per field, and none outside a list
    of fields, is at most as long as the list. *)
Lemma lookups_bounded fields evs :
  (forall f, ~ In f fields -> lookups_for f evs = []) ->
  (forall f, length (lookups_for f evs) <= 1) ->
  length evs <= length fields.
Proof.
  revert evs. induction fields as [|f0 rest IH]; intros evs Hnot Hone.
  - destruct evs as [|[f r keys] evs]; [simpl; lia|].
    specialize (Hnot f (fun H => H)). simpl in Hnot.
    rewrite String.eqb_refl in Hnot. discriminate.
  - rewrite (lookups_split f0 evs). pose proof (Hone f0) as H0. simpl.
    enough (length (lookups_except f0 evs) <= length rest) by lia.
    apply IH.
    + intros f Hf. destruct (String.eqb_spec f f0) as [->|Hne].
      * apply lookups_for_except_same.
      * rewrite lookups_for_except_other by exact Hne.
        apply Hnot. intros [H|H]; [congruence | tauto].
    + intros f. destruct (String.eqb_spec f f0) as [->|Hne].
      * rewrite lookups_for_except_same. simpl. lia.
      * rewrite lookups_for_except_other by exact Hne. apply Hone.
Qed.



(** ** The populated fields *)

Lemma Forall2_weaken_In {A B} (R S : A -> B -> Prop) l l' :
  (forall a b, In a l -> R a b -> S a b) ->
  Forall2 R l l' -> Forall2 S l l'.
Proof.
  intros H HF. induction HF; constructor.
  - apply H; [left; reflexivity | assumption].
  - apply IHHF. intros a b Ha. apply H. right. exact Ha.
Qed.

Lemma gather_ids_In f docs d x :
  In d docs -> In x (ids_of (get d f)) -> In x (gather_ids f docs).
Proof.
  intros Hd Hx. unfold gather_ids. apply in_flat_map. exists d.
  split; [exact Hd | exact Hx].
Qed.

Lemma batch_keys_member f docs d x :
  In d docs -> In x (ids_of (get d f)) ->
  same_value_zero x x = true ->
  existsb (same_value_zero x) (batch_keys f docs) = true.
Proof.
  intros Hd Hx Hxx. unfold batch_keys. rewrite new_Set_member.
  apply existsb_exists. exists x. split; [|exact Hxx].
  eapply gather_ids_In; eassumption.
Qed.

Lemma batch_keys_nil f docs d :
  batch_keys f docs = [] -> In d docs -> ids_of (get d f) = [].
Proof.
  unfold batch_keys. rewrite new_Set_nil. intros Hg Hd.
  destruct (ids_of (get d f)) as [|x xs] eqn:E; [reflexivity|].
  exfalso. assert (Hin : In x (gather_ids f docs)).
  { eapply gather_ids_In; [exact Hd|]. rewrite E. left. reflexivity. }
  rewrite Hg in Hin. exact Hin.
Qed.

Lemma things_equal_key_svz a b :
  is_key a = true -> things_equal a b = same_value_zero a b.
Proof. destruct a, b; simpl; try discriminate; reflexivity. Qed.

(** Over a collection whose documents carry strings, numbers or booleans
    as identifiers, an identifier matches the document that the lookup
    by key resolves it to. *)
Lemma matched_docs_resolved c ids :
  ids_ok c = true -> matched_docs c ids = resolved_docs c ids.
Proof.
  intros Hids. unfold matched_docs, resolved_docs, lookup_id.
  assert (Hfind : forall id,
            List.find (fun d => things_equal (get d "_id") id) c
            = List.find (fun d => same_value_zero (get d "_id") id) c).
  { intros id. unfold ids_ok in Hids. induction c as [|d c IH]; simpl;
      [reflexivity|].
    simpl in Hids. apply andb_true_iff in Hids as [Hd Hc].
    rewrite (things_equal_key_svz _ id Hd), (IH Hc). reflexivity. }
  induction ids as [|id ids IH]; simpl; [reflexivity|].
  rewrite Hfind, IH. reflexivity.
Qed.

(** C1, as amended.  When every requested field is configured, populate
    succeeds; and, over a referenced collection whose identifiers are
    strings, integers or booleans, no two of them written alike and none
    written [__proto__] ([store_ok]), a document whose requested field
    held a sequence of identifiers holds, in that field, the documents
    those identifiers match: in the order of the identifiers, the
    identifiers that match no document left out. *)
Theorem populate_array_resolved reg m fields docs t f r rm :
  NoDup fields ->
  In f fields ->
  Forall (fun g => configured reg m g = true) fields ->
  ref_model reg m f = Ok (r, rm) ->
  store_ok (stored (db rm)) = true ->
  exists docs' t',
    _populate reg m fields docs t = (Ok docs', t') /\
    Forall2 (fun d d' =>
               forall xs, get d f = VArr xs ->
                          get d' f = VArr (matched_docs (stored (db rm)) xs))
            docs docs'.
Proof.
  intros Hnd Hf Hall Hcfg Hok.
  destruct (_populate_succeeds reg m fields docs t Hall) as (docs' & t' & Hrun).
  exists docs', t'. split; [exact Hrun|].
  apply _populate_outcome in Hrun; [|exact Hnd].
  eapply Forall2_weaken_In; [|exact Hrun].
  intros d d' Hd [_ Hreq] xs Hxs.
  destruct (Hreq f Hf) as (r' & rm' & Hcfg' & Hv & _).
  rewrite Hcfg in Hcfg'. inversion Hcfg'; subst r' rm'. clear Hcfg'.
  rewrite matched_docs_resolved by (apply store_ok_parts, Hok).
  rewrite Hv, Hxs. unfold field_after.
  destruct (batch_keys f docs) as [|k keys] eqn:Hk.
  - pose proof (batch_keys_nil f docs d Hk Hd) as Hnil.
    rewrite Hxs in Hnil. simpl in Hnil. subst xs. reflexivity.
  - simpl. f_equal. apply resolved_docs_filter.
    intros x Hx. apply map_get_resolve; [exact Hok|].
    destruct (is_key x) eqn:Hkey; [left | right; reflexivity].
    rewrite <- Hk. apply (batch_keys_member f docs d x Hd).
    + rewrite Hxs. exact Hx.
    + apply svz_key. exact Hkey.
Qed.

Lemma populate_array_resolved_witness :
  exists docs' t',
    _populate sample_registry Author ["books"] sample_authors []
    = (Ok docs', t') /\
    Forall2 (fun d d' =>
               get d "books" = VArr [VStr "b2"; VStr "b7"; VStr "b1"] ->
               get d' "books"
               = VArr [VObj [("_id", VStr "b2");
                             ("title", VStr "Die Verwandlung");
                             ("author", VStr "a1")];
                       VObj [("_id", VStr "b1");
                             ("title", VStr "Der Process")]])
            sample_authors docs'.
Proof.
  assert (Hnd : NoDup ["books"]) by by_computation.
  assert (Hall : Forall (fun g => configured sample_registry Author g = true)
                        ["books"]) by (repeat constructor).
  destruct (populate_array_resolved sample_registry Author ["books"]
              sample_authors [] "books" "Book" Book Hnd
              (or_introl eq_refl) Hall eq_refl eq_refl)
    as (docs' & t' & Hrun & Hres).
  exists docs', t'. split; [exact Hrun|].
  eapply Forall2_weaken; [|exact Hres].
  intros d d' H Hd. exact (H _ Hd).
Defined.

(** C1 as stated fails.  Two documents of the referenced collection
    carry the number [7] and the string ['7'] as identifiers: the engine
    files both under the key ['7'] and fetches only the second, so that a
    field that referred to both holds one document.  A third carries a
    date: it is fetched, but the lookup map, which compares dates by
    reference, finds it under no identifier, and a field that referred to
    it holds none.  Each of the three identifiers matches its
    document. *)
Lemma populate_array_counterexample :
  matched_docs sample_tomes [VNum 7; VStr "7"]
  = [VObj [("_id", VNum 7); ("title", VStr "Amerika")];
     VObj [("_id", VStr "7"); ("title", VStr "Das Schloss")]] /\
  matched_docs sample_tomes [VDate 1924]
  = [VObj [("_id", VDate 1924); ("title", VStr "Ein Hungerkuenstler")]] /\
  _populate sample_shelving Shelf ["tomes"] sample_shelves []
  = (Ok [[("_id", VStr "s1");
          ("tomes", VArr [VObj [("_id", VStr "7");
                                ("title", VStr "Das Schloss")]])];
         [("_id", VStr "s2"); ("tomes", VArr [])]],
     [Lookup "tomes" "Tome" [VNum 7; VStr "7"; VDate 1924]]).
Proof. repeat split; reflexivity. Qed.


Lemma populated_value_miss map v :
  isArray v = false -> map_get map v = VUndefined ->
  populated_value map v = VNull.
Proof.
  intros Ha Hm. destruct v; simpl in *; try discriminate;
    rewrite Hm; reflexivity.
Qed.

(** C5.  When every requested field is configured, populate succeeds;
    and a document whose requested field holds a single identifier that
    no document of the referenced collection carries holds [null] in that
    field afterwards. *)
Theorem populate_scalar_miss reg m fields docs t f r rm :
  NoDup fields ->
  In f fields ->
  Forall (fun g => configured reg m g = true) fields ->
  ref_model reg m f = Ok (r, rm) ->
  exists docs' t',
    _populate reg m fields docs t = (Ok docs', t') /\
    Forall2 (fun d d' =>
               isArray (get d f) = false ->
               nullish (get d f) = false ->
               (forall x, In x (stored (db rm)) ->
                          get x "_id" <> get d f) ->
               get d' f = VNull)
            docs docs'.
Proof.
  intros Hnd Hf Hall Hcfg.
  destruct (_populate_succeeds reg m fields docs t Hall) as (docs' & t' & Hrun).
  exists docs', t'. split; [exact Hrun|].
  apply _populate_outcome in Hrun; [|exact Hnd].
  eapply Forall2_weaken_In; [|exact Hrun].
  intros d d' Hd [_ Hreq] Harr Hnull Hmiss.
  destruct (Hreq f Hf) as (r' & rm' & Hcfg' & Hv & _).
  rewrite Hcfg in Hcfg'. inversion Hcfg'; subst r' rm'. clear Hcfg'.
  rewrite Hv. unfold field_after.
  destruct (batch_keys f docs) as [|k keys] eqn:Hk.
  - pose proof (batch_keys_nil f docs d Hk Hd) as Hnil.
    unfold ids_of in Hnil. rewrite Hnull in Hnil.
    destruct (get d f); simpl in *; discriminate.
  - apply populated_value_miss; [exact Harr|].
    apply map_get_miss. exact Hmiss.
Qed.

Lemma populate_scalar_miss_witness :
  exists docs' t',
    _populate sample_registry Book ["author"] sample_books []
    = (Ok docs', t') /\
    option_map (fun d => get d "author") (nth_error docs' 2) = Some VNull.
Proof.
  assert (Hnd : NoDup ["author"]) by by_computation.
  assert (Hall : Forall (fun g => configured sample_registry Book g = true)
                        ["author"]) by (repeat constructor).
  destruct (populate_scalar_miss sample_registry Book ["author"] sample_books
              [] "author" "Author" Author Hnd (or_introl eq_refl)
              Hall eq_refl)
    as (docs' & t' & Hrun & _).
  exists docs', t'. split; [exact Hrun|].
  vm_compute in Hrun. inversion Hrun. reflexivity.
Defined.




(** ** findOne with a sort *)

Lemma _buildCursor_exec q :
  cursor_exec (_buildCursor q)
  = apply_limit (limitCount q)
      (apply_skip (skipCount q)
         (match sortObj q with
          | Some s => s (List.filter (query q) (stored (db (q_model q))))
          | None => List.filter (query q) (stored (db (q_model q)))
          end)).
Proof.
  unfold _buildCursor.
  destruct (sortObj q), (skipCount q), (limitCount q); reflexivity.
Qed.

(** C3.  [findOne] with a sort does not behave as [find] with the same
    filter, sort and limit 1: it runs the many path without a limit, so
    populate works on every matching document.  Over the sample books
    (the first has no [author] field, the other two have one) [findOne]
    with a sort issues a lookup for the authors of the other books and
    returns the first book with [author] set to [null]; [find] with
    limit 1 issues no lookup and returns the first book as stored,
    without an [author] field. *)
Theorem findOne_sorted_populates_every_match :
  exec sample_registry
    (populate (sort (Model_findOne Book match_all) (Some storage_order))
              "author") []
  = (Ok (One (Some [("_id", VStr "b1"); ("title", VStr "Der Process");
                    ("author", VNull)])),
     [Lookup "author" "Author" [VStr "a1"; VStr "a9"]]) /\
  exec sample_registry
    (populate (limit (sort (Model_find Book match_all) (Some storage_order))
                     1) "author") []
  = (Ok (Many [[("_id", VStr "b1"); ("title", VStr "Der Process")]]), []).
Proof. split; reflexivity. Qed.

(** A query built with [populate] never requests a field twice. *)
Lemma built_query_NoDup m f single fields :
  NoDup (populateFields (populate_all (new_Query m f single) fields)).
Proof. apply populate_all_NoDup. apply NoDup_nil. constructor. Qed.

Lemma snd_bind_ret {A B} (c : M A) (g : A -> B) t :
  snd (bind c (fun a => ret (g a)) t) = snd (c t).
Proof. unfold bind, ret. destruct (c t) as [[a|e] t']; reflexivity. Qed.

(** An execution runs populate at most once. *)
Lemma exec_trace reg q t :
  snd (exec reg q t) = t \/
  exists docs,
    snd (exec reg q t)
    = snd (_populate reg (q_model q) (populateFields q) docs t).
Proof.
  unfold exec. destruct (single q).
  - rewrite snd_bind_ret. unfold _execOne.
    destruct (bool_decide (sortObj q <> None)
              || bool_decide (skipCount q <> None)).
    + rewrite snd_bind_ret. right. eexists. reflexivity.
    + destruct (db_findOne (stored (db (q_model q))) (query q)) as [doc|].
      * rewrite snd_bind_ret. right. eexists. reflexivity.
      * left. reflexivity.
  - rewrite snd_bind_ret. right. eexists. reflexivity.
Qed.

(** The bound of C4 for a whole execution: whatever the number of
    documents, an execution issues at most one lookup per requested
    field. *)
Lemma exec_batch_bounded reg q t :
  NoDup (populateFields q) ->
  exists evs,
    snd (exec reg q t) = t ++ evs /\
    length evs <= length (populateFields q) /\
    forall f, length (lookups_for f evs) <= 1.
Proof.
  intros Hnd. destruct (exec_trace reg q t) as [H|[docs H]].
  - exists []. rewrite H, app_nil_r. simpl. repeat split; lia.
  - destruct (_populate_trace reg (q_model q) (populateFields q) docs t Hnd)
      as (evs & Ht & _ & Hnot & _ & Hone).
    exists evs. rewrite H. split; [exact Ht|].
    split; [apply lookups_bounded; assumption | exact Hone].
Qed.

(** * Further properties *)

(** ** Validated documents *)

Lemma set_wf d k v : wf_object d -> wf_object (set d k v).
Proof.
  unfold wf_object. induction d as [|[a x] d IH]; simpl; intros Hd.
  - apply NoDup_singleton.
  - apply NoDup_cons in Hd as [Hna Hd].
    destruct (String.eqb_spec a k) as [->|Hak]; simpl.
    + apply NoDup_cons. split; assumption.
    + apply NoDup_cons. split; [|apply IH; exact Hd].
      intros Hin. apply list_elem_of_In, has_key_In in Hin.
      rewrite has_key_set in Hin. apply String.eqb_neq in Hak.
      rewrite String.eqb_sym, Hak in Hin. simpl in Hin.
      apply Hna, list_elem_of_In, has_key_In. exact Hin.
Qed.

Lemma object_assign_wf t s : wf_object t -> wf_object (object_assign t s).
Proof.
  revert t. induction s as [|[k v] s IH]; intros t Ht; [exact Ht|].
  rewrite object_assign_cons. apply IH, set_wf, Ht.
Qed.

Lemma validate_fields_wf defn doc acc res :
  validate_fields defn doc acc = Ok res -> wf_object acc -> wf_object res.
Proof.
  revert acc. induction defn as [|[key f] defn IH]; intros acc Hv Ha.
  - simpl in Hv. inversion Hv; subst; exact Ha.
  - simpl in Hv.
    destruct (required_missing _ _); [discriminate|].
    destruct (type_mismatch _ _); [discriminate|].
    apply IH in Hv; [exact Hv|].
    destruct (is_undefined _); [exact Ha | apply set_wf, Ha].
Qed.

(** The validation loop succeeds exactly when no declared field raises
    an error. *)
Lemma validate_fields_Ok defn doc acc :
  (exists res, validate_fields defn doc acc = Ok res) <->
  Forall (fun kf => field_error doc kf = None) defn.
Proof.
  revert acc. induction defn as [|[key f] defn IH]; intros acc.
  - simpl. split; [constructor | eauto].
  - simpl. rewrite Forall_cons. unfold field_error at 1. simpl.
    destruct (required_missing f _).
    { split; [intros [res H]; discriminate | intros [H _]; discriminate]. }
    destruct (type_mismatch f _).
    { split; [intros [res H]; discriminate | intros [H _]; discriminate]. }
    rewrite IH. tauto.
Qed.

Lemma get_In_wf (d : document) k v :
  wf_object d -> In (k, v) d -> get d k = v /\ has_key d k = true.
Proof.
  unfold wf_object. induction d as [|[a x] d IH]; intros Hd Hin; [destruct Hin|].
  simpl in *. apply NoDup_cons in Hd as [Hna Hd].
  destruct Hin as [Heq|Hin].
  - inversion Heq; subst. rewrite String.eqb_refl. auto.
  - destruct (String.eqb_spec a k) as [->|Hak].
    + exfalso. apply Hna, list_elem_of_In.
      apply (in_map fst) in Hin. exact Hin.
    + simpl. apply IH; assumption.
Qed.

(** Assigning to an object properties it already holds changes nothing. *)
Lemma object_assign_same (d s : document) :
  (forall k v, In (k, v) s -> get d k = v /\ has_key d k = true) ->
  object_assign d s = d.
Proof.
  induction s as [|[k v] s IH]; intros H; [reflexivity|].
  rewrite object_assign_cons.
  destruct (H k v (or_introl eq_refl)) as [Hg Hk].
  rewrite <- Hg, set_same by exact Hk.
  apply IH. intros k' v' Hin. apply H. right. exact Hin.
Qed.

(** What the output of a successful validation holds for a declared
    key. *)
Lemma validate_out_get defn doc out k f :
  wf_object doc -> NoDup (List.map fst defn) ->
  validate defn doc = Ok out -> In (k, f) defn ->
  get out k = (if is_undefined (apply_default f doc k)
               then get doc k else apply_default f doc k) /\
  field_error doc (k, f) = None.
Proof.
  intros Hwf Hnd Hv Hin. unfold validate in Hv.
  destruct (validate_fields defn doc []) as [result|e] eqn:Hr; [|discriminate].
  inversion Hv; subst out; clear Hv.
  rewrite (object_assign_copy [] doc) by exact Hwf. simpl.
  pose proof (validate_fields_get _ _ _ _ Hnd Hr k) as Hget.
  rewrite (find_key_In _ _ _ Hnd Hin) in Hget. simpl in Hget.
  destruct Hget as [Hg Hh].
  assert (Hwr : wf_object result).
  { apply (validate_fields_wf _ _ _ _ Hr). apply NoDup_nil. constructor. }
  split.
  - rewrite get_object_assign, (get_rev_wf _ _ Hwr), Hh, Hg. simpl.
    destruct (is_undefined (apply_default f doc k)); reflexivity.
  - assert (Hall : Forall (fun kf => field_error doc kf = None) defn)
      by (apply (validate_fields_Ok defn doc []); eauto).
    rewrite Forall_forall in Hall. apply Hall, list_elem_of_In, Hin.
Qed.

Lemma jstype_eqb_eq a b : jstype_eqb a b = true -> a = b.
Proof. destruct a, b; simpl; congruence. Qed.

(** A value left [undefined] by defaulting comes from an input value
    that is [undefined] or [null]. *)
Lemma apply_default_undefined f doc k :
  is_undefined (apply_default f doc k) = true -> nullish (get doc k) = true.
Proof.
  unfold apply_default. destruct (nullish (get doc k)) eqn:E; [reflexivity|].
  simpl. intros H. destruct (get doc k); simpl in *; discriminate.
Qed.

Lemma validate_Ok_conforms defn doc out :
  wf_object doc ->
  NoDup (List.map fst defn) ->
  validate defn doc = Ok out ->
  conforms defn out.
Proof.
  intros Hwf Hnd Hv k f Hin.
  destruct (validate_out_get defn doc out k f Hwf Hnd Hv Hin) as [Hg He].
  unfold field_error, required_missing, type_mismatch in He. simpl in He.
  set (v := apply_default f doc k) in *.
  assert (Hout : nullish (get out k) = false -> get out k = v).
  { rewrite Hg. destruct (is_undefined v) eqn:Hu; [|reflexivity].
    intros Hn. apply apply_default_undefined in Hu. congruence. }
  split.
  - intros Hreq. rewrite Hreq in He. simpl in He.
    destruct (nullish v) eqn:Hn; [discriminate|].
    rewrite Hg. destruct v; simpl in *; congruence.
  - intros Hn. pose proof (Hout Hn) as E. rewrite E in Hn |- *.
    rewrite Hn in He. rewrite andb_false_r in He. simpl in He.
    destruct (constructor_of v) as [c|]; [|discriminate].
    destruct (jstype_eqb c (ftype f)) eqn:Hc; [|discriminate].
    apply jstype_eqb_eq in Hc. congruence.
Qed.

(** X1.  A document that [validate] returns conforms to the schema:
    every required field holds a value that is neither [undefined] nor
    [null], and every declared field that holds such a value holds one
    built by the declared constructor.  (The schema declares no name of
    [Object.prototype], and the input has no own [__proto__] property.) *)
Theorem validate_conforms defn doc out :
  wf_object doc ->
  NoDup (List.map fst defn) ->
  plain_schema defn = true ->
  plain_input doc = true ->
  validate defn doc = Ok out ->
  conforms defn out.
Proof. intros Hwf Hnd _ _. apply validate_Ok_conforms; assumption. Qed.

Lemma validate_conforms_witness :
  conforms AuthorDef
    [("name", VStr "Franz Kafka"); ("born", VNum 1883); ("books", VArr [])].
Proof.
  apply (validate_conforms AuthorDef
           [("name", VStr "Franz Kafka"); ("born", VNum 1883)]).
  - unfold wf_object. by_computation.
  - by_computation.
  - reflexivity.
  - reflexivity.
  - reflexivity.
Defined.

Lemma validate_fields_ext defn doc1 doc2 acc :
  (forall k f, In (k, f) defn ->
               apply_default f doc1 k = apply_default f doc2 k) ->
  validate_fields defn doc1 acc = validate_fields defn doc2 acc.
Proof.
  revert acc. induction defn as [|[key f] defn IH]; intros acc H.
  - reflexivity.
  - simpl. rewrite (H key f) by (left; reflexivity).
    destruct (required_missing _ _); [reflexivity|].
    destruct (type_mismatch _ _); [reflexivity|].
    apply IH. intros k g Hin. apply H. right. exact Hin.
Qed.

(** X2.  Validation is idempotent: a document that [validate] returned
    is accepted by [validate] and returned unchanged.  (The generators of
    the schema yield values, not [undefined] or [null], so that the
    second validation calls none of them; the schema declares no name of
    [Object.prototype], and the input has no own [__proto__] property.) *)
Theorem validate_idempotent defn doc out :
  wf_object doc ->
  NoDup (List.map fst defn) ->
  plain_schema defn = true ->
  plain_input doc = true ->
  generators_yield defn = true ->
  validate defn doc = Ok out ->
  validate defn out = Ok out.
Proof.
  intros Hwf Hnd _ _ _ Hv.
  assert (Hsame : forall k f, In (k, f) defn ->
            apply_default f out k = apply_default f doc k).
  { intros k f Hin.
    destruct (validate_out_get defn doc out k f Hwf Hnd Hv Hin) as [Hg _].
    unfold apply_default at 1. rewrite Hg.
    destruct (is_undefined (apply_default f doc k)) eqn:Hu.
    - pose proof (apply_default_undefined _ _ _ Hu) as Hn. rewrite Hn.
      unfold apply_default in *. rewrite Hn in *. simpl in *.
      destruct (has_default f); simpl in *; [reflexivity|].
      destruct (get doc k); simpl in *; congruence.
    - destruct (nullish (apply_default f doc k)) eqn:Hn; [|reflexivity].
      simpl. unfold apply_default in *.
      destruct (nullish (get doc k) && has_default f) eqn:Hd.
      + apply andb_true_iff in Hd as [_ Hd]. rewrite Hd. reflexivity.
      + destruct (has_default f); [|reflexivity].
        rewrite andb_true_r in Hd. congruence. }
  unfold validate in *.
  rewrite (validate_fields_ext defn out doc [] Hsame).
  destruct (validate_fields defn doc []) as [result|e] eqn:Hr; [|discriminate].
  inversion Hv as [Hout]. rewrite Hout. f_equal.
  rewrite (object_assign_copy [] doc) in Hout by exact Hwf. simpl in Hout.
  assert (Hwo : wf_object out) by (subst out; apply object_assign_wf, Hwf).
  rewrite (object_assign_copy [] out) by exact Hwo. simpl.
  apply object_assign_same. intros k v Hin.
  assert (Hwr : wf_object result).
  { apply (validate_fields_wf _ _ _ _ Hr). apply NoDup_nil. constructor. }
  destruct (get_In_wf result k v Hwr Hin) as [Hg Hk].
  subst out. rewrite get_object_assign, has_key_object_assign, Hk.
  rewrite (get_rev_wf _ _ Hwr), orb_true_r. auto.
Qed.

Lemma validate_idempotent_witness :
  validate AuthorDef
    [("name", VStr "Franz Kafka"); ("born", VNum 1883); ("books", VArr [])]
  = Ok [("name", VStr "Franz Kafka"); ("born", VNum 1883);
        ("books", VArr [])].
Proof.
  apply (validate_idempotent AuthorDef
           [("name", VStr "Franz Kafka"); ("born", VNum 1883)]).
  - unfold wf_object. by_computation.
  - by_computation.
  - reflexivity.
  - reflexivity.
  - reflexivity.
  - reflexivity.
Defined.

Lemma jstype_eqb_refl a : jstype_eqb a a = true.
Proof. destruct a; reflexivity. Qed.

(** A declared field passes its checks exactly when its defaulted value
    is present if the field is required, and built by the declared
    constructor if it is present. *)
Lemma field_error_None doc k f :
  field_error doc (k, f) = None <->
  (required f = true -> nullish (apply_default f doc k) = false) /\
  (nullish (apply_default f doc k) = false ->
   constructor_of (apply_default f doc k) = Some (ftype f)).
Proof.
  unfold field_error, required_missing, type_mismatch. simpl.
  destruct (required f), (nullish (apply_default f doc k)) eqn:Hn; simpl.
  - split; [discriminate | intros [H _]; specialize (H eq_refl); discriminate].
  - destruct (constructor_of (apply_default f doc k)) as [c|] eqn:Hc.
    + destruct (jstype_eqb c (ftype f)) eqn:E; simpl.
      * apply jstype_eqb_eq in E. subst. tauto.
      * split; [discriminate|]. intros [_ H]. specialize (H eq_refl).
        inversion H; subst. rewrite jstype_eqb_refl in E. discriminate.
    + split; [discriminate|]. intros [_ H]. specialize (H eq_refl).
      discriminate.
  - split; [intros _; split; [discriminate|discriminate]|reflexivity].
  - destruct (constructor_of (apply_default f doc k)) as [c|] eqn:Hc.
    + destruct (jstype_eqb c (ftype f)) eqn:E; simpl.
      * apply jstype_eqb_eq in E. subst. tauto.
      * split; [discriminate|]. intros [_ H]. specialize (H eq_refl).
        inversion H; subst. rewrite jstype_eqb_refl in E. discriminate.
    + split; [discriminate|]. intros [_ H]. specialize (H eq_refl).
      discriminate.
Qed.

(** X3.  [validate] accepts a document exactly when every declared field,
    after defaulting, is present if it is required and, if it is present,
    holds a value built by the declared constructor.  Keys that the
    schema does not declare play no part.  (The schema declares no name
    of [Object.prototype], and the input has no own [__proto__]
    property.) *)
Theorem validate_accepts_iff defn doc :
  plain_schema defn = true ->
  plain_input doc = true ->
  (exists out, validate defn doc = Ok out) <->
  (forall k f, In (k, f) defn ->
     (required f = true -> nullish (apply_default f doc k) = false) /\
     (nullish (apply_default f doc k) = false ->
      constructor_of (apply_default f doc k) = Some (ftype f))).
Proof.
  intros _ _.
  assert (Hv : (exists out, validate defn doc = Ok out) <->
               (exists res, validate_fields defn doc [] = Ok res)).
  { unfold validate. destruct (validate_fields defn doc []) as [res|e].
    - split; eauto.
    - split; intros [x H]; discriminate. }
  rewrite Hv, validate_fields_Ok, List.Forall_forall. split.
  - intros H k f Hin. apply field_error_None. apply (H (k, f) Hin).
  - intros H [k f] Hin. apply field_error_None. apply H. exact Hin.
Qed.

Lemma validate_accepts_iff_witness :
  (exists out, validate BookDef [("title", VStr "Der Process")] = Ok out) /\
  ~ (exists out, validate BookDef [("title", VNum 1925)] = Ok out).
Proof.
  split.
  - apply (validate_accepts_iff BookDef [("title", VStr "Der Process")]
             eq_refl eq_refl).
    intros k f [H|[H|[]]]; inversion H; subst; split; simpl;
      try discriminate; reflexivity.
  - intros H.
    destruct (validate_accepts_iff BookDef [("title", VNum 1925)]
                eq_refl eq_refl) as [Hto _].
    destruct (Hto H "title" (plain_field TString true) (or_introl eq_refl))
      as [_ Hc].
    specialize (Hc eq_refl). discriminate.
Defined.

(** X4.  [validate] raises the type error for a key exactly when that
    key is the first declared field to fail a check and its defaulted
    value is neither [undefined] nor [null] and was built by another
    constructor than the declared one; the error names the declared
    type.  In particular a [null] value never raises it.  (The schema
    declares no name of [Object.prototype], so that a declared key is
    read from the input's own properties.) *)
Theorem validate_type_mismatch_iff defn doc k ty :
  plain_schema defn = true ->
  validate defn doc = Err (TypeMismatch k ty) <->
  exists pre f post,
    defn = pre ++ (k, f) :: post /\
    Forall (fun kf => field_error doc kf = None) pre /\
    ty = jstype_name (ftype f) /\
    nullish (apply_default f doc k) = false /\
    constructor_of (apply_default f doc k) <> Some (ftype f).
Proof.
  intros _. rewrite validate_Err, validate_fields_Err. split.
  - intros (pre & [k' f] & post & Heq & Hpre & Hkf).
    unfold field_error, required_missing, type_mismatch in Hkf.
    simpl in Hkf.
    destruct (required f && nullish (apply_default f doc k')) eqn:Hreq;
      [discriminate|].
    destruct (nullish (apply_default f doc k')) eqn:Hn; [discriminate|].
    simpl in Hkf.
    destruct (constructor_of (apply_default f doc k')) as [c|] eqn:Hc.
    + destruct (jstype_eqb c (ftype f)) eqn:E; [discriminate|].
      simpl in Hkf. inversion Hkf; subst k' ty.
      exists pre, f, post. repeat split; try assumption.
      rewrite Hc. intros H. inversion H; subst.
      rewrite jstype_eqb_refl in E. discriminate.
    + simpl in Hkf. inversion Hkf; subst k' ty.
      exists pre, f, post. repeat split; try assumption.
      rewrite Hc. discriminate.
  - intros (pre & f & post & Heq & Hpre & -> & Hn & Hc).
    exists pre, (k, f), post. split; [exact Heq|]. split; [exact Hpre|].
    unfold field_error, required_missing, type_mismatch. simpl.
    rewrite Hn, andb_false_r. simpl.
    destruct (constructor_of (apply_default f doc k)) as [c|]; [|reflexivity].
    destruct (jstype_eqb c (ftype f)) eqn:E; [|reflexivity].
    apply jstype_eqb_eq in E. subst. congruence.
Qed.

Lemma validate_type_mismatch_iff_witness :
  validate BookDef
    [("title", VStr "Der Process");
     ("author", VObj [("constructor", VStr "String")])]
  = Err (TypeMismatch "author" "String").
Proof.
  apply (validate_type_mismatch_iff BookDef _ "author" "String" eq_refl).
  exists [("title", plain_field TString true)],
         (mkField TString false None (Some "Author") false false None), [].
  split; [reflexivity|]. split; [repeat constructor|].
  split; [reflexivity|]. split; [reflexivity|]. discriminate.
Defined.

(** ** The query builder, continued *)

Lemma includes_snoc fields f : includes (fields ++ [f]) f = true.
Proof. apply includes_In, in_or_app. right. left. reflexivity. Qed.

Lemma populate_In q f g :
  In g (populateFields (populate q f)) <->
  In g (populateFields q) \/ g = f.
Proof.
  unfold populate. destruct (includes (populateFields q) f) eqn:E; simpl.
  - apply includes_In in E. split; [tauto|]. intros [H| ->]; assumption.
  - rewrite in_app_iff. simpl. split; intros [H|H]; auto.
    destruct H as [H|[]]; auto.
Qed.

Lemma populate_all_In_iff q fields g :
  In g (populateFields (populate_all q fields)) <->
  In g (populateFields q) \/ In g fields.
Proof.
  revert q. induction fields as [|h fields IH]; intros q; simpl.
  - tauto.
  - rewrite IH, populate_In. split.
    + intros [[H|H]|H]; auto.
    + intros [H|[H|H]]; auto.
Qed.

(** X5.  [populate] records each requested field once: asking for a
    field again leaves the query as it is, and after any sequence of
    [populate] calls on a new query the requested fields are exactly the
    fields asked for, none of them twice. *)
Theorem populate_records_once m filter single fields f :
  let q := populate_all (new_Query m filter single) fields in
  populate (populate q f) f = populate q f /\
  NoDup (populateFields q) /\
  (forall g, In g (populateFields q) <-> In g fields).
Proof.
  intros q. split; [|split].
  - unfold populate at 1.
    destruct (includes (populateFields (populate q f)) f) eqn:E;
      [reflexivity|].
    exfalso. unfold populate in E.
    destruct (includes (populateFields q) f) eqn:E'; [congruence|].
    simpl in E. rewrite includes_snoc in E. discriminate.
  - apply populate_all_NoDup. apply NoDup_nil. constructor.
  - intros g. unfold q. rewrite populate_all_In_iff. simpl. tauto.
Qed.

(** ** Populate, continued *)

Lemma _populate_frame reg m fields docs t docs' t' :
  _populate reg m fields docs t = (Ok docs', t') ->
  Forall2 (fun d d' => forall g, ~ In g fields -> same_on g d d') docs docs'.
Proof.
  revert docs t. induction fields as [|f0 rest IH]; intros docs t Hrun.
  - simpl in Hrun. inversion Hrun; subst. apply Forall2_diag.
    intros d g _. apply same_on_refl.
  - simpl in Hrun. unfold bind in Hrun.
    destruct (populate_field reg m f0 docs t) as [[docs1|e] t1] eqn:Hround;
      [|discriminate].
    apply populate_field_round in Hround
      as (r0 & rm0 & h & _ & -> & Hframe & _).
    apply IH in Hrun. apply Forall2_map_left in Hrun.
    eapply Forall2_weaken; [|exact Hrun].
    intros d d' Hother g Hg. apply same_on_trans with (h d).
    + apply Hframe. intros ->. apply Hg. left. reflexivity.
    + apply Hother. intros Hin. apply Hg. right. exact Hin.
Qed.

(** X6.  Populate returns as many documents as it was given, in the same
    order, and leaves every field that was not requested as it was: the
    same value, and absent where it was absent. *)
Theorem populate_keeps_other_fields reg m fields docs t docs' t' :
  _populate reg m fields docs t = (Ok docs', t') ->
  length docs' = length docs /\
  Forall2 (fun d d' => forall g, ~ In g fields -> same_on g d d') docs docs'.
Proof.
  intros Hrun. apply _populate_frame in Hrun. split; [|exact Hrun].
  symmetry. eapply Forall2_length. exact Hrun.
Qed.

Lemma populate_keeps_other_fields_witness :
  exists docs',
    length docs' = length sample_books /\
    Forall2 (fun d d' => same_on "title" d d') sample_books docs'.
Proof.
  destruct (_populate sample_registry Book ["author"] sample_books [])
    as [[docs'|e] t'] eqn:Hrun; [|vm_compute in Hrun; discriminate].
  destruct (populate_keeps_other_fields _ _ _ _ _ _ _ Hrun) as [Hlen Hall].
  exists docs'. split; [exact Hlen|].
  eapply Forall2_weaken; [|exact Hall].
  intros d d' H. apply H. intros [E|[]]. discriminate.
Defined.

Lemma _populate_Ok_iff reg m fields docs t :
  (exists docs', fst (_populate reg m fields docs t) = Ok docs') <->
  Forall (fun f => configured reg m f = true) fields.
Proof.
  split.
  - revert docs t. induction fields as [|f rest IH]; intros docs t [docs' H].
    + constructor.
    + simpl in H. unfold bind in H. rewrite populate_field_run in H.
      destruct (ref_model reg m f) as [[r rm]|e] eqn:Hc; [|discriminate].
      constructor; [unfold configured; rewrite Hc; reflexivity|].
      destruct (batch_keys f docs); eapply IH; eauto.
  - intros H. destruct (_populate_succeeds reg m fields docs t H)
      as (docs' & t' & Hrun).
    exists docs'. rewrite Hrun. reflexivity.
Qed.

Lemma Forall2_join {A B C} (R : A -> B -> Prop) (S : A -> C -> Prop) l a b :
  Forall2 R l a -> Forall2 S l b ->
  Forall2 (fun x y => exists d, R d x /\ S d y) a b.
Proof.
  intros H. revert b. induction H; intros b HS; inversion HS; subst.
  - constructor.
  - constructor; [eauto | apply IHForall2; assumption].
Qed.

(** X8.  The order in which fields were requested does not change what
    populate returns: two requests for the same fields, on the same
    result set, succeed together, and their documents read alike (the
    same value for every key; only the order of added properties may
    differ). *)
Theorem populate_order_irrelevant reg m fields1 fields2 docs t1 t2 docs1 t1' :
  NoDup fields1 ->
  NoDup fields2 ->
  (forall f, In f fields1 <-> In f fields2) ->
  _populate reg m fields1 docs t1 = (Ok docs1, t1') ->
  exists docs2 t2',
    _populate reg m fields2 docs t2 = (Ok docs2, t2') /\
    Forall2 reads_alike docs1 docs2.
Proof.
  intros Hnd1 Hnd2 Hsame Hrun1.
  assert (Hcfg : Forall (fun f => configured reg m f = true) fields2).
  { assert (H1 : Forall (fun f => configured reg m f = true) fields1).
    { apply (_populate_Ok_iff reg m fields1 docs t1).
      exists docs1. rewrite Hrun1. reflexivity. }
    rewrite List.Forall_forall in *. intros f Hf. apply H1, Hsame, Hf. }
  destruct (_populate_succeeds reg m fields2 docs t2 Hcfg)
    as (docs2 & t2' & Hrun2).
  exists docs2, t2'. split; [exact Hrun2|].
  apply _populate_outcome in Hrun1; [|exact Hnd1].
  apply _populate_outcome in Hrun2; [|exact Hnd2].
  eapply Forall2_weaken; [|exact (Forall2_join _ _ _ _ _ Hrun1 Hrun2)].
  intros d1 d2 (d & [Ho1 Hr1] & [Ho2 Hr2]) k.
  destruct (includes fields1 k) eqn:E.
  - apply includes_In in E.
    destruct (Hr1 k E) as (r & rm & Hc & Hv & Hp).
    destruct (Hr2 k (proj1 (Hsame k) E)) as (r' & rm' & Hc' & Hv' & Hp').
    rewrite Hc in Hc'. inversion Hc'; subst r' rm'.
    split; congruence.
  - assert (Hn1 : ~ In k fields1)
      by (intros H; apply includes_In in H; congruence).
    assert (Hn2 : ~ In k fields2) by (intros H; apply Hn1, Hsame, H).
    destruct (Ho1 k Hn1) as [A1 A2]. destruct (Ho2 k Hn2) as [B1 B2].
    split; congruence.
Qed.

Lemma populate_order_irrelevant_witness :
  exists docs1 docs2 t1 t2,
    _populate sample_library Loan ["book"; "reader"] sample_loans []
    = (Ok docs1, t1) /\
    _populate sample_library Loan ["reader"; "book"] sample_loans []
    = (Ok docs2, t2) /\
    Forall2 reads_alike docs1 docs2.
Proof.
  destruct (_populate sample_library Loan ["book"; "reader"] sample_loans [])
    as [[docs1|e] t1] eqn:Hrun; [|vm_compute in Hrun; discriminate].
  assert (Hnd1 : NoDup ["book"; "reader"]) by by_computation.
  assert (Hnd2 : NoDup ["reader"; "book"]) by by_computation.
  assert (Hsame : forall f, In f ["book"; "reader"] <-> In f ["reader"; "book"])
    by (intros f; simpl; tauto).
  destruct (populate_order_irrelevant sample_library Loan _ _ sample_loans
              [] [] docs1 t1 Hnd1 Hnd2 Hsame Hrun)
    as (docs2 & t2 & Hrun2 & Halike).
  exists docs1, docs2, t1, t2. auto.
Defined.

(** In a well-kept collection every document is found under its own
    identifier. *)
Lemma lookup_id_In c x :
  store_ok c = true -> In x c -> lookup_id c (get x "_id") = Some x.
Proof.
  intros Hok Hx. apply store_ok_parts in Hok as (Hids & Hdis & _).
  unfold lookup_id.
  destruct (List.find _ c) as [y|] eqn:Hf.
  - apply find_some in Hf as [Hy Hsv]. apply svz_eq in Hsv. f_equal.
    apply (distinct_id_strings_inj c); try assumption. congruence.
  - pose proof (find_none _ _ Hf x Hx) as Hn. simpl in Hn.
    rewrite svz_key in Hn by (eapply ids_ok_In; eassumption). discriminate.
Qed.

(** X9.  When every requested field is configured, populate succeeds;
    and, over a referenced collection whose identifiers are strings,
    integers or booleans, no two of them written alike and none written
    [__proto__] ([store_ok]), a document whose requested field holds the
    identifier of a document of that collection holds that document in
    the field afterwards. *)
Theorem populate_scalar_resolved reg m fields docs t f r rm :
  NoDup fields ->
  In f fields ->
  Forall (fun g => configured reg m g = true) fields ->
  ref_model reg m f = Ok (r, rm) ->
  store_ok (stored (db rm)) = true ->
  exists docs' t',
    _populate reg m fields docs t = (Ok docs', t') /\
    Forall2 (fun d d' =>
               forall x, In x (stored (db rm)) ->
                         get x "_id" = get d f ->
                         get d' f = VObj x)
            docs docs'.
Proof.
  intros Hnd Hf Hall Hcfg Hok.
  destruct (_populate_succeeds reg m fields docs t Hall) as (docs' & t' & Hrun).
  exists docs', t'. split; [exact Hrun|].
  apply _populate_outcome in Hrun; [|exact Hnd].
  eapply Forall2_weaken_In; [|exact Hrun].
  intros d d' Hd [_ Hreq] x Hx Hid.
  destruct (Hreq f Hf) as (r' & rm' & Hcfg' & Hv & _).
  rewrite Hcfg in Hcfg'. inversion Hcfg'; subst r' rm'. clear Hcfg'.
  destruct (store_ok_parts _ Hok) as (Hids & _).
  assert (Hkey : is_key (get d f) = true)
    by (rewrite <- Hid; apply (ids_ok_In _ _ Hids Hx)).
  assert (Hone : ids_of (get d f) = [get d f])
    by (destruct (get d f); simpl in *; congruence).
  assert (Hmem : existsb (same_value_zero (get d f)) (batch_keys f docs) = true).
  { apply (batch_keys_member f docs d _ Hd).
    - rewrite Hone. left. reflexivity.
    - apply svz_key, Hkey. }
  assert (Hres : resolve (stored (db rm)) (get d f) = VObj x).
  { unfold resolve. rewrite <- Hid, (lookup_id_In _ _ Hok Hx). reflexivity. }
  rewrite Hv. unfold field_after.
  destruct (batch_keys f docs) as [|k keys] eqn:Hk; [discriminate|].
  rewrite <- Hk in Hmem.
  pose proof (map_get_resolve rm (batch_keys f docs) (get d f) Hok
                (or_introl Hmem)) as Hmap.
  rewrite Hk in Hmap. rewrite Hres in Hmap.
  destruct (get d f); simpl in Hkey; try discriminate;
    simpl; rewrite Hmap; reflexivity.
Qed.

Lemma populate_scalar_resolved_witness :
  exists docs' t',
    _populate sample_registry Book ["author"] sample_books []
    = (Ok docs', t') /\
    option_map (fun d => get d "author") (nth_error docs' 1)
    = Some (VObj (hd [] sample_authors)).
Proof.
  assert (Hnd : NoDup ["author"]) by by_computation.
  assert (Hall : Forall (fun g => configured sample_registry Book g = true)
                        ["author"]) by (repeat constructor).
  destruct (populate_scalar_resolved sample_registry Book ["author"]
              sample_books [] "author" "Author" Author Hnd
              (or_introl eq_refl) Hall eq_refl eq_refl)
    as (docs' & t' & Hrun & Hres).
  exists docs', t'. split; [exact Hrun|].
  vm_compute in Hrun. inversion Hrun. reflexivity.
Defined.

(** ** Executions, continued *)

Lemma exec_many_docs reg q t ds t' :
  single q = false ->
  exec reg q t = (Ok (Many ds), t') ->
  _populate reg (q_model q) (populateFields q) (cursor_exec (_buildCursor q)) t
  = (Ok ds, t').
Proof.
  intros Hs. unfold exec, _execMany. rewrite Hs. unfold bind, ret.
  destruct (_populate _ _ _ _ t) as [[ds0|e] t0]; intros H; inversion H.
  reflexivity.
Qed.

(** X10.  A query in many mode with a limit [n > 0] returns at most [n]
    documents, with or without populate. *)
Theorem exec_many_respects_limit reg q t ds t' n :
  single q = false ->
  limitCount q = Some n ->
  0 < n ->
  exec reg q t = (Ok (Many ds), t') ->
  length ds <= n.
Proof.
  intros Hs Hl Hn Hrun. apply exec_many_docs in Hrun; [|exact Hs].
  apply _populate_frame, Forall2_length in Hrun. rewrite <- Hrun.
  rewrite _buildCursor_exec, Hl. destruct n as [|n]; [lia|].
  simpl. apply firstn_le_length.
Qed.

Lemma exec_many_respects_limit_witness :
  exists ds t',
    exec sample_registry
      (populate (limit (Model_find Book match_all) 2) "author") []
    = (Ok (Many ds), t') /\
    length ds <= 2.
Proof.
  destruct (exec sample_registry
      (populate (limit (Model_find Book match_all) 2) "author") [])
    as [[[o|ds]|e] t'] eqn:Hrun; try (vm_compute in Hrun; discriminate).
  exists ds, t'. split; [reflexivity|].
  apply (exec_many_respects_limit sample_registry
           (populate (limit (Model_find Book match_all) 2) "author")
           [] ds t' 2 eq_refl eq_refl); [lia | exact Hrun].
Defined.




(** ** The registry, continued *)

(** X12.  Constructing a model directly, with a name that may already be
    registered, registers the new instance under that name: the factory
    then returns the new instance, which is another object than any
    instance registered before, and the other names keep their
    instances. *)
Theorem new_Model_replaces w name d o d2 o2 :
  let this := fst (new_Model w name d o) in
  let w' := snd (new_Model w name d o) in
  model w' name d2 o2 = (this, w') /\
  (registry_ok w ->
   forall n m, modelRegistry w !! n = Some m -> oid this <> oid m) /\
  (forall n, n <> name -> modelRegistry w' !! n = modelRegistry w !! n).
Proof.
  intros this w'. split; [|split].
  - apply model_registered. apply lookup_insert_eq.
  - intros Hok n m Hm. apply Hok in Hm. simpl. lia.
  - intros n Hn. simpl. apply lookup_insert_ne. congruence.
Qed.

Lemma run_factory_cons w c calls :
  run_factory w (c :: calls)
  = run_factory (snd (model w (fst (fst c)) (snd (fst c)) (snd c))) calls.
Proof. reflexivity. Qed.

Lemma run_factory_registry_ok w calls :
  registry_ok w -> registry_ok (run_factory w calls).
Proof.
  revert w. induction calls as [|c calls IH]; intros w H; [exact H|].
  rewrite run_factory_cons. apply IH, model_registry_ok, H.
Qed.

(** Where a registered instance comes from: it was registered before the
    calls, or it was created by the first call that names it. *)
Lemma run_factory_lookup w calls n m :
  modelRegistry (run_factory w calls) !! n = Some m ->
  modelRegistry w !! n = Some m \/
  (modelRegistry w !! n = None /\
   first_definition calls n = Some (schema m) /\
   name m = n /\ next_oid w <= oid m).
Proof.
  revert w. induction calls as [|[[nc dc] oc] calls IH]; intros w H.
  - left. exact H.
  - rewrite run_factory_cons in H. simpl in H. apply IH in H.
    unfold model in H. simpl.
    destruct (modelRegistry w !! nc) as [mc|] eqn:Hc; simpl in H.
    + destruct H as [H|(Hn & Hd & Hname & Hoid)]; [left; exact H|].
      right. split; [exact Hn|].
      destruct (String.eqb_spec nc n) as [->|Hne]; [congruence|]. auto.
    + destruct (String.eqb_spec nc n) as [->|Hne].
      * destruct H as [H|(Hn & _)].
        -- rewrite lookup_insert_eq in H. inversion H; subst m.
           right. simpl. auto.
        -- rewrite lookup_insert_eq in Hn. discriminate.
      * rewrite lookup_insert_ne in H by exact Hne.
        destruct H as [H|(Hn & Hd & Hname & Hoid)]; [left; exact H|].
        right. repeat split; try assumption. lia.
Qed.

Lemma run_factory_registers w calls n d :
  first_definition calls n = Some d ->
  is_Some (modelRegistry (run_factory w calls) !! n).
Proof.
  revert w. induction calls as [|[[nc dc] oc] calls IH]; intros w H.
  - discriminate.
  - rewrite run_factory_cons. simpl in *.
    destruct (String.eqb_spec nc n) as [->|Hne].
    + eexists. apply run_factory_keeps. apply model_registers.
    + apply IH. exact H.
Qed.

(** Distinct names are registered to distinct objects. *)
Lemma model_oid_injective w nc dc oc :
  registry_ok w ->
  (forall n1 n2 m1 m2, modelRegistry w !! n1 = Some m1 ->
     modelRegistry w !! n2 = Some m2 -> oid m1 = oid m2 -> n1 = n2) ->
  forall n1 n2 m1 m2,
    modelRegistry (snd (model w nc dc oc)) !! n1 = Some m1 ->
    modelRegistry (snd (model w nc dc oc)) !! n2 = Some m2 ->
    oid m1 = oid m2 -> n1 = n2.
Proof.
  intros Hok Hinj n1 n2 m1 m2. unfold model.
  destruct (modelRegistry w !! nc) eqn:Hc; simpl; [apply Hinj|].
  rewrite !lookup_insert.
  destruct (decide (nc = n1)) as [<-|H1], (decide (nc = n2)) as [<-|H2];
    intros E1 E2 Ho.
  - reflexivity.
  - inversion E1; subst m1. apply Hok in E2. simpl in Ho. lia.
  - inversion E2; subst m2. apply Hok in E1. simpl in Ho. lia.
  - eapply Hinj; eassumption.
Qed.

Lemma run_factory_oid_injective w calls :
  registry_ok w ->
  (forall n1 n2 m1 m2, modelRegistry w !! n1 = Some m1 ->
     modelRegistry w !! n2 = Some m2 -> oid m1 = oid m2 -> n1 = n2) ->
  forall n1 n2 m1 m2,
    modelRegistry (run_factory w calls) !! n1 = Some m1 ->
    modelRegistry (run_factory w calls) !! n2 = Some m2 ->
    oid m1 = oid m2 -> n1 = n2.
Proof.
  revert w. induction calls as [|[[nc dc] oc] calls IH]; intros w Hok Hinj.
  - exact Hinj.
  - rewrite run_factory_cons. apply IH.
    + apply model_registry_ok, Hok.
    + apply model_oid_injective; assumption.
Qed.

(** X13.  After any sequence of factory calls, starting with no model
    defined: a name is registered exactly when some call named it; the
    instance registered under a name carries that name and the schema
    definition of the first call that named it, whatever later calls
    passed; and different names are registered to different objects. *)
Theorem factory_registry_invariant disk calls :
  let w := run_factory (empty_world disk) calls in
  (forall n, is_Some (modelRegistry w !! n) <->
             is_Some (first_definition calls n)) /\
  (forall n m, modelRegistry w !! n = Some m ->
     name m = n /\ first_definition calls n = Some (schema m) /\
     oid m < next_oid w) /\
  (forall n1 n2 m1 m2, modelRegistry w !! n1 = Some m1 ->
     modelRegistry w !! n2 = Some m2 -> oid m1 = oid m2 -> n1 = n2).
Proof.
  intros w.
  assert (Hok0 : registry_ok (empty_world disk)).
  { intros n m H. simpl in H. rewrite lookup_empty in H. discriminate. }
  assert (Hfrom : forall n m, modelRegistry w !! n = Some m ->
            first_definition calls n = Some (schema m) /\ name m = n).
  { intros n m H. apply run_factory_lookup in H as [H|(_ & Hd & Hn & _)].
    - simpl in H. rewrite lookup_empty in H. discriminate.
    - auto. }
  split; [|split].
  - intros n. split.
    + intros [m Hm]. destruct (Hfrom n m Hm) as [Hd _]. eauto.
    + intros [d Hd]. eapply run_factory_registers. exact Hd.
  - intros n m Hm. destruct (Hfrom n m Hm) as [Hd Hn].
    split; [exact Hn|]. split; [exact Hd|].
    apply (run_factory_registry_ok _ calls Hok0 n m Hm).
  - apply run_factory_oid_injective; [exact Hok0|].
    intros n1 n2 m1 m2 H. simpl in H. rewrite lookup_empty in H.
    discriminate.
Qed.

(** X14.  The constructor asks the storage engine for an index on
    exactly the declared fields that are flagged [unique] or [index] or
    have a [ttl], with the field's own flags and with the [ttl] as expiry;
    a field without any of the three gets no index. *)
Theorem new_Model_indexes w name schemaDef options ix :
  In ix (indexes (db (fst (new_Model w name schemaDef options)))) <->
  exists k f,
    In (k, f) schemaDef /\
    (unique f = true \/ index f = true \/ ttl f <> None) /\
    ix = mkIndex k (unique f) (index f) (ttl f).
Proof.
  simpl. unfold ensure_indexes. rewrite in_flat_map. split.
  - intros ([k f] & Hin & Hix). simpl in Hix.
    destruct (unique f || index f || bool_decide (ttl f <> None)) eqn:E;
      [|destruct Hix].
    destruct Hix as [<-|[]]. exists k, f. split; [exact Hin|].
    split; [|reflexivity].
    apply orb_true_iff in E as [E|E].
    + apply orb_true_iff in E. tauto.
    + apply bool_decide_eq_true in E. tauto.
  - intros (k & f & Hin & Hflag & ->). exists (k, f). split; [exact Hin|].
    simpl.
    assert (E : unique f || index f || bool_decide (ttl f <> None) = true).
    { destruct Hflag as [H|[H|H]].
      - rewrite H. reflexivity.
      - rewrite H. rewrite orb_true_r. reflexivity.
      - apply orb_true_iff. right. apply bool_decide_eq_true. exact H. }
    rewrite E. left. reflexivity.
Qed.

(** ** Model.delete and Model.create *)








(** X16.  [Model.create] validates before it stores: a document that
    fails validation is refused with the validation error, whatever the
    storage engine would do with it; and when [create] succeeds, what the
    storage engine was handed is the validated document, which conforms
    to the schema, and the result is the engine's.  (The schema declares
    no name of [Object.prototype], and the input has no own [__proto__]
    property.) *)
Theorem Model_create_validates insert m doc :
  wf_object doc ->
  NoDup (List.map fst (schema m)) ->
  plain_schema (schema m) = true ->
  plain_input doc = true ->
  (forall e, validate (schema m) doc = Err e ->
             Model_create insert m doc = Err e) /\
  (forall d m', Model_create insert m doc = Ok (d, m') ->
     exists validated docs',
       validate (schema m) doc = Ok validated /\
       conforms (schema m) validated /\
       insert (stored (db m)) validated = Ok (d, docs') /\
       m' = with_docs m docs').
Proof.
  intros Hwf Hnd _ _. split.
  - intros e He. unfold Model_create. rewrite He. reflexivity.
  - intros d m' Hc. unfold Model_create in Hc.
    destruct (validate (schema m) doc) as [validated|e] eqn:Hv;
      [|discriminate].
    destruct (insert (stored (db m)) validated) as [[d0 docs']|e] eqn:Hi;
      [|discriminate].
    inversion Hc; subst. exists validated, docs'.
    split; [reflexivity|]. split; [|auto].
    eapply validate_Ok_conforms; eassumption.
Qed.

(** ** Single mode with a sort or a skip *)

(** X17.  A query in single mode that has a sort or a skip runs exactly
    as the same query in many mode, with its sort, skip, limit and
    populate requests, and returns the first of the documents that one
    returns, or [null] when it returns none: the same error, and the same
    lookups, issued for all the documents fetched and not for the first
    only. *)
Theorem single_with_sort_or_skip_runs_many reg q t :
  sortObj q <> None \/ skipCount q <> None ->
  exec reg (with_single q true) t =
  match exec reg (with_single q false) t with
  | (Ok (Many ds), t') => (Ok (One (head ds)), t')
  | (Ok (One doc), t') => (Ok (One doc), t')
  | (Err e, t') => (Err e, t')
  end.
Proof.
  intros Hset. unfold exec. simpl. unfold _execOne. simpl.
  assert (E : bool_decide (sortObj q <> None)
              || bool_decide (skipCount q <> None) = true).
  { apply orb_true_iff. destruct Hset as [H|H]; [left | right];
      apply bool_decide_eq_true; exact H. }
  rewrite E. unfold _execMany, _buildCursor. simpl. unfold bind, ret.
  destruct (_populate reg (q_model q) (populateFields q) _ t)
    as [[ds|e] t']; reflexivity.
Qed.

Lemma single_with_sort_or_skip_runs_many_witness :
  exec sample_registry
    (with_single (populate (skip (Model_find Book match_all) 1) "author")
       true) []
  = (Ok (One (Some [("_id", VStr "b2"); ("title", VStr "Die Verwandlung");
                    ("author", VObj (hd [] sample_authors))])),
     [Lookup "author" "Author" [VStr "a1"; VStr "a9"]]).
Proof.
  rewrite (single_with_sort_or_skip_runs_many sample_registry
             (populate (skip (Model_find Book match_all) 1) "author") []).
  - reflexivity.
  - right. discriminate.
Defined.

(** ** What populate puts into a field *)

(** What the lookup map answers is nothing, or a document of the
    referenced collection that carries the key as its identifier. *)
Lemma map_get_fetched rm keys k :
  map_get (lookup_map (batch_fetch rm keys)) k = VUndefined \/
  exists x, In x (stored (db rm)) /\ get x "_id" = k /\
            map_get (lookup_map (batch_fetch rm keys)) k = VObj x.
Proof.
  rewrite map_get_lookup_map.
  destruct (last_with_id_cases VUndefined (batch_fetch rm keys) k)
    as [H|(x & Hx & Hid & H)]; [left; exact H|].
  right. exists x. apply batch_fetch_In in Hx as [Hx _]. auto.
Qed.

Lemma populated_array_sound rm keys xs :
  exists ys,
    List.filter truthy (List.map (map_get (lookup_map (batch_fetch rm keys)))
                                 xs) = ys /\
    length ys <= length xs /\
    forall y, In y ys ->
      exists x, y = VObj x /\ In x (stored (db rm)) /\ In (get x "_id") xs.
Proof.
  eexists. split; [reflexivity|]. split.
  - rewrite <- (length_map (map_get (lookup_map (batch_fetch rm keys))) xs).
    apply List.filter_length_le.
  - intros y Hy. apply filter_In in Hy as [Hy Ht].
    apply in_map_iff in Hy as (k & <- & Hk).
    destruct (map_get_fetched rm keys k) as [H|(x & Hx & Hid & H)].
    + rewrite H in Ht. discriminate.
    + exists x. rewrite Hid. auto.
Qed.

(** X18.  Populate never invents a document.  After a successful
    populate, a field that held a sequence of identifiers holds a
    sequence that is not longer, made of documents of the referenced
    collection whose identifiers occur in the original sequence; and a
    field that held a single value other than [null] holds [null] or the
    document of the referenced collection that carries that value as
    its identifier.  This needs no assumption on the referenced
    collection. *)
Theorem populate_never_invents reg m fields docs t docs' t' f r rm :
  NoDup fields ->
  In f fields ->
  ref_model reg m f = Ok (r, rm) ->
  _populate reg m fields docs t = (Ok docs', t') ->
  Forall2 (fun d d' =>
    (forall xs, get d f = VArr xs ->
       exists ys, get d' f = VArr ys /\ length ys <= length xs /\
         forall y, In y ys ->
           exists x, y = VObj x /\ In x (stored (db rm)) /\
                     In (get x "_id") xs) /\
    (isArray (get d f) = false -> nullish (get d f) = false ->
       get d' f = VNull \/
       exists x, get d' f = VObj x /\ In x (stored (db rm)) /\
                 get x "_id" = get d f))
    docs docs'.
Proof.
  intros Hnd Hf Hcfg Hrun.
  apply _populate_outcome in Hrun; [|exact Hnd].
  eapply Forall2_weaken_In; [|exact Hrun].
  intros d d' Hd [_ Hreq].
  destruct (Hreq f Hf) as (r' & rm' & Hcfg' & Hv & _).
  rewrite Hcfg in Hcfg'. inversion Hcfg'; subst r' rm'. clear Hcfg'.
  unfold field_after in Hv. split.
  - intros xs Hxs. rewrite Hxs in Hv.
    destruct (batch_keys f docs) as [|k keys] eqn:Hk.
    + pose proof (batch_keys_nil f docs d Hk Hd) as Hnil.
      rewrite Hxs in Hnil. simpl in Hnil. subst xs.
      exists []. rewrite Hv. split; [reflexivity|]. split; [reflexivity|].
      intros y [].
    + simpl in Hv.
      destruct (populated_array_sound rm (k :: keys) xs)
        as (ys & Hys & Hlen & Hall).
      exists ys. rewrite Hv, Hys. auto.
  - intros Harr Hnull.
    destruct (batch_keys f docs) as [|k keys] eqn:Hk.
    + pose proof (batch_keys_nil f docs d Hk Hd) as Hnil.
      unfold ids_of in Hnil. rewrite Hnull in Hnil.
      destruct (get d f); simpl in *; discriminate.
    + destruct (map_get_fetched rm (k :: keys) (get d f))
        as [H|(x & Hx & Hid & H)].
      * left. rewrite Hv. apply populated_value_miss; assumption.
      * right. exists x. split; [|auto]. rewrite Hv.
        destruct (get d f); simpl in *; try discriminate;
          rewrite H; reflexivity.
Qed.

Lemma populate_never_invents_witness :
  exists docs' t',
    _populate sample_registry Author ["books"] sample_authors []
    = (Ok docs', t') /\
    Forall2 (fun d d' =>
               forall xs, get d "books" = VArr xs ->
                 exists ys, get d' "books" = VArr ys /\
                            length ys <= length xs)
            sample_authors docs'.
Proof.
  destruct (_populate sample_registry Author ["books"] sample_authors [])
    as [[docs'|e] t'] eqn:Hrun; [|vm_compute in Hrun; discriminate].
  assert (Hnd : NoDup ["books"]) by by_computation.
  pose proof (populate_never_invents sample_registry Author ["books"]
                sample_authors [] docs' t' "books" "Book" Book Hnd
                (or_introl eq_refl) eq_refl Hrun) as H.
  exists docs', t'. split; [reflexivity|].
  eapply Forall2_weaken; [|exact H].
  intros d d' [Harr _] xs Hxs.
  destruct (Harr xs Hxs) as (ys & Hys & Hlen & _). eauto.
Defined.

Lemma Model_create_validates_witness :
  let insert : engine_insert :=
    fun c d => Ok (set d "_id" (VStr "a2"), c ++ [set d "_id" (VStr "a2")]) in
  Model_create insert Author [("books", VNull)]
  = Err (RequiredFieldMissing "name") /\
  exists d m',
    Model_create insert Author [("name", VStr "Max Brod")] = Ok (d, m') /\
    conforms AuthorDef [("name", VStr "Max Brod"); ("books", VArr [])].
Proof.
  intros insert.
  assert (Hnd : NoDup (List.map fst (schema Author))) by by_computation.
  assert (Hwf1 : wf_object [("books", VNull)])
    by (unfold wf_object; by_computation).
  assert (Hwf2 : wf_object [("name", VStr "Max Brod")])
    by (unfold wf_object; by_computation).
  destruct (Model_create_validates insert Author [("books", VNull)]
              Hwf1 Hnd eq_refl eq_refl) as [Hrefuse _].
  destruct (Model_create_validates insert Author [("name", VStr "Max Brod")]
              Hwf2 Hnd eq_refl eq_refl) as [_ Haccept].
  split; [apply Hrefuse; reflexivity|].
  eexists. eexists. split; [reflexivity|].
  destruct (Haccept _ _ eq_refl) as (v & docs' & Hv & Hc & _).
  vm_compute in Hv. inversion Hv; subst v. exact Hc.
Defined.
